(** * KuralDub: the dubbing-script decoder and the seek handler

    A shallow embedding of the two pieces of logic of the application
    component [App]: [handleSeek] (timestamp text to seconds, then a
    seek on the video element) and [parseScript] (the text returned by the
    generator, decoded into [ScriptLine] records).

    JavaScript strings are sequences of UTF-16 code units, numbers are
    IEEE-754 binary64 values, and the regular expressions of the source are
    kept as regular expressions and run by a backtracking matcher. *)

From Stdlib Require Import String Ascii.
From Stdlib Require Import List Bool Arith ZArith NArith Lia.
From Stdlib Require Import Floats.SpecFloat.
Import ListNotations.

(** ** Strings *)

Module JsString.

(** A code unit is a number below 65536; a string is a list of them. *)
Definition code_unit := N.
Definition jsstring := list code_unit.

(** The code units of an ASCII literal of the source. *)
Definition str (s : string) : jsstring :=
  map N_of_ascii (list_ascii_of_string s).

Definition cu_eqb (a b : code_unit) : bool := N.eqb a b.

(** WhiteSpace and LineTerminator of ECMAScript: what [trim], the
    leading-blank skip of [parseFloat] and the class [\s] all use. *)
Definition is_white_space (c : code_unit) : bool :=
  ((9 <=? c) && (c <=? 13) || (c =? 32) || (c =? 160) || (c =? 5760)
   || (8192 <=? c) && (c <=? 8202)
   || (c =? 8232) || (c =? 8233) || (c =? 8239) || (c =? 8287)
   || (c =? 12288) || (c =? 65279))%N.

(** LineTerminator: the units the pattern [.] refuses. *)
Definition is_line_terminator (c : code_unit) : bool :=
  ((c =? 10) || (c =? 13) || (c =? 8232) || (c =? 8233))%N.

Definition is_digit (c : code_unit) : bool := ((48 <=? c) && (c <=? 57))%N.

Fixpoint take_while (p : code_unit -> bool) (s : jsstring) : jsstring :=
  match s with
  | c :: s' => if p c then c :: take_while p s' else []
  | [] => []
  end.

Fixpoint drop_while (p : code_unit -> bool) (s : jsstring) : jsstring :=
  match s with
  | c :: s' => if p c then drop_while p s' else s
  | [] => []
  end.

(** [String.prototype.trim] *)
Definition trimStart (s : jsstring) : jsstring := drop_while is_white_space s.
Definition trimEnd (s : jsstring) : jsstring := rev (trimStart (rev s)).
Definition trim (s : jsstring) : jsstring := trimEnd (trimStart s).

Fixpoint starts_with (p s : jsstring) : bool :=
  match p, s with
  | [], _ => true
  | x :: p', y :: s' => cu_eqb x y && starts_with p' s'
  | _ :: _, [] => false
  end.

(** [StringIndexOf(s, sep, 0)]: the first index at which [sep] occurs. *)
Fixpoint indexOf (sep s : jsstring) : option nat :=
  if starts_with sep s then Some 0
  else match s with
       | [] => None
       | _ :: s' => option_map S (indexOf sep s')
       end.

(** [String.prototype.split] with a string separator and no limit: the
    loop of the language definition, searching the next occurrence after
    the end of the previous one.  Each round of a non-empty separator
    consumes at least one unit, so [length s] rounds are enough. *)
Fixpoint split_loop (fuel : nat) (sep s : jsstring) : list jsstring :=
  match fuel with
  | 0 => [s]
  | S fuel' =>
      match indexOf sep s with
      | None => [s]
      | Some j => firstn j s :: split_loop fuel' sep (skipn (j + length sep) s)
      end
  end.

Definition split (sep s : jsstring) : list jsstring :=
  match sep with
  | [] => map (fun c => [c]) s
  | _ :: _ => split_loop (length s) sep s
  end.

End JsString.

Import JsString.

(** ** Numbers *)

Module JsNumber.

(** The Number type: binary64, with one NaN. *)
Definition number := spec_float.

Definition prec : Z := 53.
Definition emax : Z := 1024.

Definition mul : number -> number -> number := SFmul prec emax.
Definition add : number -> number -> number := SFadd prec emax.

(** The value m * 2^e, rounded to the nearest Number. *)
Definition dyadic (m e : Z) : number := binary_normalize prec emax m e false.

(** An integer literal of the source. *)
Definition of_Z (z : Z) : number := dyadic z 0.

Definition NaN : number := S754_nan.

Definition isNaN (x : number) : bool :=
  match x with
  | S754_nan => true
  | _ => false
  end.

(** Neither NaN nor an infinity: the values an attribute of type [double]
    of the DOM accepts. *)
Definition is_finite (x : number) : bool :=
  match x with
  | S754_zero _ | S754_finite _ _ _ => true
  | S754_nan | S754_infinity _ => false
  end.

(** The value of a decimal literal: sign, digits [m] and decimal exponent
    [e], that is (-1)^sign * m * 10^e rounded to nearest, ties to even
    (the rounding engines apply, also beyond the twentieth digit). *)
Definition of_decimal (sign : bool) (m : N) (e : Z) : number :=
  match m with
  | N0 => S754_zero sign
  | Npos p =>
      let num := (Z.pos p * 10 ^ Z.max e 0)%Z in
      let den := (10 ^ Z.max (- e) 0)%Z in
      SFdiv prec emax (S754_finite sign (Z.to_pos num) 0)
                      (S754_finite false (Z.to_pos den) 0)
  end.

(** *** [parseFloat] *)

Definition digit_val (c : code_unit) : N := (c - 48)%N.

Definition digits_val (ds : jsstring) : N :=
  fold_left (fun acc c => (acc * 10 + digit_val c)%N) ds 0%N.

Definition c_plus : code_unit := 43%N.
Definition c_minus : code_unit := 45%N.
Definition c_dot : code_unit := 46%N.
Definition c_e : code_unit := 101%N.
Definition c_E : code_unit := 69%N.

(** ExponentPart, when one stands at the head of [s]: an exponent letter,
    an optional sign and at least one digit. *)
Definition exponent_part (s : jsstring) : Z :=
  match s with
  | c :: s1 =>
      if cu_eqb c c_e || cu_eqb c c_E then
        let '(neg, s2) :=
          match s1 with
          | d :: s2 =>
              if cu_eqb d c_minus then (true, s2)
              else if cu_eqb d c_plus then (false, s2)
              else (false, s1)
          | [] => (false, s1)
          end in
        match take_while is_digit s2 with
        | [] => 0%Z
        | ds => let v := Z.of_N (digits_val ds) in if neg then (- v)%Z else v
        end
      else 0%Z
  | [] => 0%Z
  end.

(** The longest prefix that is a StrUnsignedDecimalLiteral, and its value. *)
Definition unsigned_literal (sign : bool) (s : jsstring) : number :=
  if starts_with (str "Infinity") s then S754_infinity sign
  else
    let ip := take_while is_digit s in
    let s1 := drop_while is_digit s in
    match s1 with
    | c :: s2 =>
        if cu_eqb c c_dot then
          let fp := take_while is_digit s2 in
          let s3 := drop_while is_digit s2 in
          match ip, fp with
          | [], [] => NaN
          | _, _ =>
              of_decimal sign (digits_val (ip ++ fp))
                         (exponent_part s3 - Z.of_nat (length fp))
          end
        else
          match ip with
          | [] => NaN
          | _ => of_decimal sign (digits_val ip) (exponent_part s1)
          end
    | [] =>
        match ip with
        | [] => NaN
        | _ => of_decimal sign (digits_val ip) 0
        end
    end.

Definition parseFloat (s : jsstring) : number :=
  match trimStart s with
  | c :: s' =>
      if cu_eqb c c_minus then unsigned_literal true s'
      else if cu_eqb c c_plus then unsigned_literal false s'
      else unsigned_literal false (c :: s')
  | [] => NaN
  end.

End JsNumber.

Import JsNumber.

(** ** Regular expressions *)

Module RegExp.

(** The part of the pattern language the source's literals use: pattern
    characters, classes ([\d], [\s], [.], [[\d:.]]), the greedy quantifiers
    [*] and [+] on a class, sequence and capturing groups.  A class is
    tested on the unit itself also under the [i] flag: the two classes
    used with that flag, [\s] and [.], hold no unit with a case mapping. *)
Inductive regex : Type :=
| Eps
| Chr (c : code_unit)
| Cls (p : code_unit -> bool)
| Star (p : code_unit -> bool)
| Plus (p : code_unit -> bool)
| Seq (r1 r2 : regex)
| Group (r : regex).

Record RegExp : Type := { source : regex; ignoreCase : bool }.

Definition seq (rs : list regex) : regex := fold_right Seq Eps rs.
Definition lit (s : jsstring) : list regex := map Chr s.

Definition ascii_upper (c : code_unit) : code_unit :=
  if ((97 <=? c) && (c <=? 122))%N then (c - 32)%N else c.

(** Canonicalize, without the unicode flag.  A unit of 128 or more is never
    mapped below 128, and every pattern character of this program is below
    128, so only the mapping of the first 128 units is ever compared. *)
Definition canonicalize (ic : bool) (c : code_unit) : code_unit :=
  if ic then (if (c <? 128)%N then ascii_upper c else c) else c.

Definition chr_matches (ic : bool) (pc c : code_unit) : bool :=
  cu_eqb (canonicalize ic pc) (canonicalize ic c).

Section Matcher.
Variable A : Type.

(** Greedy repetition of a class: the longest run first, then shorter
    ones while the continuation fails. *)
Fixpoint star_m (p : code_unit -> bool) (s : jsstring)
         (k : jsstring -> option A) : option A :=
  match s with
  | c :: s' =>
      if p c then
        match star_m p s' k with
        | Some r => Some r
        | None => k s
        end
      else k s
  | [] => k s
  end.

(** The matcher of a pattern, in continuation-passing style as in the
    language definition: [s] is the input from the current position on,
    [caps] the groups closed so far. *)
Fixpoint rmatch (ic : bool) (r : regex) (s : jsstring) (caps : list jsstring)
         (k : jsstring -> list jsstring -> option A) : option A :=
  match r with
  | Eps => k s caps
  | Chr pc =>
      match s with
      | c :: s' => if chr_matches ic pc c then k s' caps else None
      | [] => None
      end
  | Cls p =>
      match s with
      | c :: s' => if p c then k s' caps else None
      | [] => None
      end
  | Star p => star_m p s (fun s' => k s' caps)
  | Plus p =>
      match s with
      | c :: s' => if p c then star_m p s' (fun s'' => k s'' caps) else None
      | [] => None
      end
  | Seq r1 r2 => rmatch ic r1 s caps (fun s1 caps1 => rmatch ic r2 s1 caps1 k)
  | Group r1 =>
      rmatch ic r1 s caps
             (fun s1 caps1 => k s1 (caps1 ++ [firstn (length s - length s1) s]))
  end.
End Matcher.

Arguments star_m {A} p s k.
Arguments rmatch {A} ic r s caps k.

(** A match at the head of [s]: the array of the whole match followed by
    the groups. *)
Definition match_here (re : RegExp) (s : jsstring) : option (list jsstring) :=
  rmatch re.(ignoreCase) re.(source) s []
         (fun s' caps => Some (firstn (length s - length s') s :: caps)).

(** [RegExp.prototype.exec] of a pattern without the global flag: the
    leftmost start index at which the pattern matches. *)
Fixpoint exec (re : RegExp) (s : jsstring) : option (list jsstring) :=
  match match_here re s with
  | Some m => Some m
  | None =>
      match s with
      | [] => None
      | _ :: s' => exec re s'
      end
  end.

(** [String.prototype.match] *)
Definition String_match (s : jsstring) (re : RegExp) : option (list jsstring) :=
  exec re s.

End RegExp.

Import RegExp.

(** ** Completions *)

Inductive js_error : Type := TypeError.

Inductive completion (A : Type) : Type :=
| Normal (a : A)
| Throw (e : js_error).

Arguments Normal {A} a.
Arguments Throw {A} e.

Definition bind {A B : Type} (c : completion A) (f : A -> completion B)
  : completion B :=
  match c with
  | Normal a => f a
  | Throw e => Throw e
  end.

Notation "x <- c ;; k" := (bind c (fun x => k))
  (at level 61, c at next level, right associativity).

(** ** The application *)

Module App.

(** types.ts *)
Record ScriptLineVersions : Type := {
  spoken : jsstring;
  tanglish : jsstring;
  syncShort : jsstring
}.

Record ScriptLine : Type := {
  person : jsstring;
  startTime : jsstring;
  endTime : jsstring;
  dialogue : jsstring;
  versions : ScriptLineVersions;
  emotion : option jsstring;
  confidenceScore : option number;
  actionDescription : option jsstring;
  originalMeaning : option jsstring
}.

(** The video element behind [videoRef]: the position last assigned to
    it, and how many times [play()] was called on it. *)
Record HTMLVideoElement : Type := {
  currentTime : number;
  play_calls : nat
}.

(** The two pieces of component state [parseScript] writes. *)
Record AppState : Type := {
  script : option (list ScriptLine);
  error : option jsstring
}.

Definition setError (e : option jsstring) (st : AppState) : AppState :=
  {| script := st.(script); error := e |}.

Definition setScript (l : option (list ScriptLine)) (st : AppState) : AppState :=
  {| script := l; error := st.(error) |}.

(** *** handleSeek *)

Definition colon : code_unit := 58%N.

(** The local [seconds] of [handleSeek] once the three tests on
    [parts.length] have run. *)
Definition handleSeek_seconds (time : jsstring) : number :=
  let parts := map parseFloat (split [colon] time) in
  match parts with
  | [p0; p1; p2] => add (add (mul p0 (of_Z 3600)) (mul p1 (of_Z 60))) p2
  | [p0; p1] => add (mul p0 (of_Z 60)) p1
  | [p0] => p0
  | _ => of_Z 0
  end.

(** The assignment [video.currentTime = seconds].  The attribute has the
    type [double]: a value that is not finite is refused with a TypeError
    and nothing is assigned. *)
Definition set_currentTime (seconds : number) (video : HTMLVideoElement)
  : completion HTMLVideoElement :=
  if is_finite seconds then
    Normal {| currentTime := seconds; play_calls := video.(play_calls) |}
  else Throw TypeError.

(** [video.play().catch(() => {})]: the call is made, and a rejection of
    its promise is swallowed. *)
Definition play (video : HTMLVideoElement) : HTMLVideoElement :=
  {| currentTime := video.(currentTime); play_calls := S video.(play_calls) |}.

Definition handleSeek (videoRef_current : option HTMLVideoElement)
           (time : jsstring) : completion (option HTMLVideoElement) :=
  match videoRef_current with
  | None => Normal None
  | Some video =>
      let seconds := handleSeek_seconds time in
      if negb (isNaN seconds) then
        v <- set_currentTime seconds video ;;
        Normal (Some (play v))
      else Normal (Some video)
  end.

(** *** parseScript *)

Definition en_dash : code_unit := 8211%N.

(** [[\d:.]] *)
Definition time_class (c : code_unit) : bool :=
  is_digit c || cu_eqb c colon || cu_eqb c c_dot.

(** [.] *)
Definition dot (c : code_unit) : bool := negb (is_line_terminator c).

(** The bracketed time range: an opening bracket, a group of one or more
    of [[\d:.]], a space, the dash, a space, a second such group and the
    closing bracket.  [dash] is the en dash or the hyphen. *)
Definition time_pattern (dash : code_unit) : RegExp :=
  {| source := seq (lit (str "[") ++ [Group (Plus time_class)]
                    ++ [Chr 32%N; Chr dash; Chr 32%N]
                    ++ [Group (Plus time_class)] ++ lit (str "]"));
     ignoreCase := false |}.

Definition re_time_en : RegExp := time_pattern en_dash.
Definition re_time_hy : RegExp := time_pattern c_minus.

(** The seven field patterns: the label, a colon, any run of white space,
    then a group holding the rest of the line; all with the [i] flag. *)
Definition label_pattern (label : jsstring) : RegExp :=
  {| source := seq (lit label ++ [Chr colon; Star is_white_space; Group (Star dot)]);
     ignoreCase := true |}.

Definition re_speaker := label_pattern (str "Speaker").
Definition re_meaning := label_pattern (str "Original Meaning").
Definition re_emotion := label_pattern (str "Emotion").
Definition re_action := label_pattern (str "Action Description").
Definition re_s := label_pattern (str "S").
Definition re_t := label_pattern (str "T").
Definition re_l := label_pattern (str "L").

(** [m[i].trim()]: reading a group that is not there gives [undefined],
    and calling [trim] on it throws. *)
Definition group_trim (m : list jsstring) (i : nat) : completion jsstring :=
  match nth_error m i with
  | Some g => Normal (trim g)
  | None => Throw TypeError
  end.

(** [m ? m[1].trim() : dflt] *)
Definition field_or (m : option (list jsstring)) (dflt : jsstring)
  : completion jsstring :=
  match m with
  | Some a => group_trim a 1
  | None => Normal dflt
  end.

Definition is_empty (s : jsstring) : bool :=
  match s with
  | [] => true
  | _ :: _ => false
  end.

(** One round of the loop over [entryBlocks]: [None] is a [continue],
    [Some l] the record pushed. *)
Definition parseBlock (block : jsstring) : completion (option ScriptLine) :=
  if is_empty (trim block) then Normal None
  else
    let timeMatch :=
      match String_match block re_time_en with
      | Some m => Some m
      | None => String_match block re_time_hy
      end in
    match timeMatch with
    | None => Normal None
    | Some tm =>
        let speakerMatch := String_match block re_speaker in
        let meaningMatch := String_match block re_meaning in
        let emotionMatch := String_match block re_emotion in
        let actionMatch := String_match block re_action in
        let sMatch := String_match block re_s in
        let tMatch := String_match block re_t in
        let lMatch := String_match block re_l in
        st <- group_trim tm 1 ;;
        en <- group_trim tm 2 ;;
        pe <- field_or speakerMatch (str "Unknown") ;;
        em <- field_or emotionMatch (str "Neutral") ;;
        me <- field_or meaningMatch [] ;;
        ac <- field_or actionMatch [] ;;
        di <- field_or sMatch [] ;;
        sp <- field_or sMatch [] ;;
        ta <- field_or tMatch [] ;;
        sy <- field_or lMatch [] ;;
        Normal (Some {| startTime := st;
                        endTime := en;
                        person := pe;
                        emotion := Some em;
                        originalMeaning := Some me;
                        actionDescription := Some ac;
                        dialogue := di;
                        versions := {| spoken := sp; tanglish := ta; syncShort := sy |};
                        confidenceScore := None |})
    end.

(** The loop: [lines] after all of [entryBlocks] has been visited. *)
Fixpoint parseBlocks (entryBlocks : list jsstring) (lines : list ScriptLine)
  : completion (list ScriptLine) :=
  match entryBlocks with
  | [] => Normal lines
  | block :: rest =>
      r <- parseBlock block ;;
      match r with
      | None => parseBlocks rest lines
      | Some l => parseBlocks rest (lines ++ [l])
      end
  end.

Definition delimiter : jsstring := str "---".

Definition parse_error_message : jsstring :=
  str "Parsing Error: AI output didn't follow the 20+ timestamp granular format.".

(** The local [lines] of [parseScript] at the end of the loop. *)
Definition parseScript_lines (text : jsstring) : completion (list ScriptLine) :=
  parseBlocks (split delimiter text) [].

Definition parseScript (text : jsstring) (st : AppState) : completion AppState :=
  lines <- parseScript_lines text ;;
  if Nat.eqb (length lines) 0 then Normal (setError (Some parse_error_message) st)
  else Normal (setScript (Some lines) st).

End App.

Import App.

(** ** Notions used to state the properties *)

Module Props.

Definition count_colons (s : jsstring) : nat := count_occ N.eq_dec s colon.

(** The text that follows a literal prefix, compared as the pattern
    characters of a regular expression are. *)
Fixpoint strip (ic : bool) (l s : jsstring) : option jsstring :=
  match l with
  | [] => Some s
  | pc :: l' =>
      match s with
      | c :: s' => if chr_matches ic pc c then strip ic l' s' else None
      | [] => None
      end
  end.

(** What follows the first place of [s] where [label], in either letter
    case, is immediately followed by a colon. *)
Fixpoint after_first_label (label s : jsstring) : option jsstring :=
  match strip true (label ++ [colon]) s with
  | Some rest => Some rest
  | None =>
      match s with
      | [] => None
      | _ :: s' => after_first_label label s'
      end
  end.

(** The rest of the line, after any white space (line breaks included). *)
Definition rest_of_line (s : jsstring) : jsstring :=
  take_while dot (drop_while is_white_space s).

Definition field_value (label dflt block : jsstring) : jsstring :=
  match after_first_label label block with
  | Some rest => trim (rest_of_line rest)
  | None => dflt
  end.

(** [label] followed by a colon stands at the start of a line of [s],
    with nothing but white space before it on that line. *)
Fixpoint line_leading_from (at_line_start : bool) (label s : jsstring) : bool :=
  (at_line_start
   && match strip true (label ++ [colon]) s with Some _ => true | None => false end)
  || match s with
     | [] => false
     | c :: s' =>
         line_leading_from
           (is_line_terminator c || (at_line_start && is_white_space c)) label s'
     end.

Definition line_leading (label s : jsstring) : bool :=
  line_leading_from true label s.

(** A non-empty run of units of a class at the head of [s], and the
    text after it. *)
Definition plus_run (p : code_unit -> bool) (s : jsstring)
  : option (jsstring * jsstring) :=
  match s with
  | c :: s' => if p c then Some (c :: take_while p s', drop_while p s') else None
  | [] => None
  end.

(** A bracketed time range read at the head of [s]: the two timestamps
    and the text after the closing bracket. *)
Definition time_here (dash : code_unit) (s : jsstring)
  : option (jsstring * jsstring * jsstring) :=
  match strip false (str "[") s with
  | None => None
  | Some s1 =>
      match plus_run time_class s1 with
      | None => None
      | Some (a, s2) =>
          match strip false [32%N; dash; 32%N] s2 with
          | None => None
          | Some s3 =>
              match plus_run time_class s3 with
              | None => None
              | Some (b, s4) =>
                  match strip false (str "]") s4 with
                  | None => None
                  | Some s5 => Some (a, b, s5)
                  end
              end
          end
      end
  end.

(** The two timestamps of the leftmost time range of [s] written with
    [dash]. *)
Fixpoint first_range (dash : code_unit) (s : jsstring)
  : option (jsstring * jsstring) :=
  match time_here dash s with
  | Some (a, b, _) => Some (a, b)
  | None =>
      match s with
      | [] => None
      | _ :: s' => first_range dash s'
      end
  end.

(** The en dash first, then the hyphen. *)
Definition block_times (block : jsstring) : option (jsstring * jsstring) :=
  match first_range en_dash block with
  | Some t => Some t
  | None => first_range c_minus block
  end.

(** The record of a block whose timestamps are [t]. *)
Definition block_line (block : jsstring) (t : jsstring * jsstring) : ScriptLine :=
  {| startTime := trim (fst t);
     endTime := trim (snd t);
     person := field_value (str "Speaker") (str "Unknown") block;
     emotion := Some (field_value (str "Emotion") (str "Neutral") block);
     originalMeaning := Some (field_value (str "Original Meaning") [] block);
     actionDescription := Some (field_value (str "Action Description") [] block);
     dialogue := field_value (str "S") [] block;
     versions := {| spoken := field_value (str "S") [] block;
                    tanglish := field_value (str "T") [] block;
                    syncShort := field_value (str "L") [] block |};
     confidenceScore := None |}.

(** What one round of the loop comes to. *)
Definition block_result (block : jsstring) : option ScriptLine :=
  if is_empty (trim block) then None
  else option_map (block_line block) (block_times block).

(** The records of a list of blocks, in the order of the blocks. *)
Definition blocks_lines (blocks : list jsstring) : list ScriptLine :=
  flat_map (fun b => match block_result b with
                     | Some l => [l]
                     | None => []
                     end) blocks.

Definition is_letter (c : code_unit) : bool :=
  ((65 <=? c) && (c <=? 90) || (97 <=? c) && (c <=? 122))%N.

(** A label the field patterns can carry: it starts with a letter and holds
    no opening bracket. *)
Definition is_label (label : jsstring) : bool :=
  match label with
  | [] => false
  | l0 :: _ => is_letter l0
  end && forallb (fun pc => negb (chr_matches true pc 91%N)) label.

(** A timestamp as the time pattern accepts it: one or more of the digits,
    the colon and the dot. *)
Definition is_time_text (s : jsstring) : bool :=
  negb (is_empty s) && forallb time_class s.

(** The text of a bracketed time range. *)
Definition range (dash : code_unit) (a b : jsstring) : jsstring :=
  str "[" ++ a ++ [32%N; dash; 32%N] ++ b ++ str "]".

Definition is_dash (d : code_unit) : Prop := d = en_dash \/ d = c_minus.

Definition contains_range (block : jsstring) : Prop :=
  exists pre dash a b post,
    is_dash dash /\ is_time_text a = true /\ is_time_text b = true
    /\ block = pre ++ range dash a b ++ post.

(** A block that its delimiter ends: in the block followed by the
    delimiter, the delimiter is first found where the block stops. *)
Definition delimited (block : jsstring) : Prop :=
  indexOf delimiter (block ++ delimiter) = Some (length block).

(** The text of entry blocks, each followed by the delimiter. *)
Definition entries_text (blocks : list jsstring) : jsstring :=
  concat (map (fun b => b ++ delimiter) blocks).

Definition all_labels : list jsstring :=
  [str "Speaker"; str "Original Meaning"; str "Emotion";
   str "Action Description"; str "S"; str "T"; str "L"].

Definition nl : jsstring := [10%N].

End Props.

Import Props.

(** ** Sample inputs *)

Module Samples.

Definition en_range : jsstring := range en_dash (str "0:00") (str "0:05").
Definition hy_range : jsstring := range c_minus (str "0:00") (str "0:05").

Definition kumar_fields : jsstring :=
  nl ++ str "Speaker: Kumar" ++ nl ++ str "Emotion: Happy" ++ nl
     ++ str "S: vanakkam" ++ nl ++ str "T: vanakkam" ++ nl ++ str "L: vna" ++ nl.

Definition kumar_en : jsstring := en_range ++ kumar_fields.

(** A later block whose timestamps come before those of [kumar_en]. *)
Definition action_block : jsstring :=
  nl ++ range c_minus (str "0:00.5") (str "0:02") ++ nl
     ++ str "Action Description: Camera pans over skyline" ++ nl.

Definition prose : jsstring := str "just some narrative prose with no markers".

Definition notes_block : jsstring := en_range ++ nl ++ str "Notes: hi".

Definition value_block : jsstring :=
  en_range ++ nl ++ str "Speaker: Watts: hello".

(** A first block with a line of introduction before its range. *)
Definition intro_line : jsstring := str "Scene 1: intro" ++ nl.

Definition same_line_en : jsstring := str "Speaker: Kumar " ++ en_range.
Definition same_line_hy : jsstring := str "Speaker: Kumar " ++ hy_range.

Definition a_video : HTMLVideoElement :=
  {| currentTime := of_Z 7; play_calls := 2 |}.

Definition kumar_line : ScriptLine :=
  {| startTime := str "0:00";
     endTime := str "0:05";
     person := str "Kumar";
     emotion := Some (str "Happy");
     originalMeaning := Some [];
     actionDescription := Some [];
     dialogue := str "vanakkam";
     versions := {| spoken := str "vanakkam"; tanglish := str "vanakkam";
                    syncShort := str "vna" |};
     confidenceScore := None |}.

Definition a_state : AppState :=
  {| script := Some [kumar_line]; error := None |}.

End Samples.

Import Samples.

(** ** Notions used for the properties of the rest of the component *)

Module Shape.

(** A text that holds no line terminator and has no white space at either
    end: what a field of a record looks like. *)
Definition single_line (s : jsstring) : Prop :=
  forallb dot s = true.

Definition trimmed (s : jsstring) : Prop :=
  drop_while is_white_space s = s
  /\ drop_while is_white_space (rev s) = rev s.

Definition tidy (s : jsstring) : Prop := single_line s /\ trim s = s.

Definition tidy_opt (o : option jsstring) : Prop :=
  exists s, o = Some s /\ tidy s.

End Shape.

Import Shape.

(** ** Notions used for seeking to the time of a record *)

Module Seek.

(** A part of a timestamp that [parseFloat] reads as a number: it starts
    with a digit, or with a dot and a digit. *)
Definition seekable_part (p : jsstring) : bool :=
  match p with
  | c :: rest =>
      is_digit c
      || (cu_eqb c c_dot
          && match rest with
             | d :: _ => is_digit d
             | [] => false
             end)
  | [] => false
  end.

(** Zero, a positive number or plus infinity. *)
Definition is_nonneg (x : number) : bool :=
  match x with
  | S754_nan => false
  | S754_zero s | S754_infinity s | S754_finite s _ _ => negb s
  end.

Definition is_digit_or_dot (c : code_unit) : bool :=
  is_digit c || cu_eqb c c_dot.

(** What a part, or a total, comes to: a number that is not negative when
    [ok], NaN when not. *)
Definition status (ok : bool) (x : number) : Prop :=
  if ok then is_nonneg x = true else x = NaN.

End Seek.

Import Seek.

(** ** ScriptViewer *)

Module ScriptViewer.

(** The button that shows the times of a record: a click calls [onSeek],
    which the application sets to [handleSeek], on the start time. *)
Definition time_button_click (videoRef_current : option HTMLVideoElement)
           (line : ScriptLine) : completion (option HTMLVideoElement) :=
  handleSeek videoRef_current (startTime line).

End ScriptViewer.

(** ** Base64: btoa, atob and the two helpers around them *)

Module Base64.

(** What [btoa] and [atob] give: a string, or the exception they raise. *)
Inductive dom (A : Type) : Type :=
| Returns (a : A)
| InvalidCharacterError.

Arguments Returns {A} a.
Arguments InvalidCharacterError {A}.

(** The alphabet: A-Z, a-z, 0-9, plus and slash. *)
Definition b64_char (i : N) : code_unit :=
  (if i <? 26 then 65 + i
   else if i <? 52 then 97 + (i - 26)
   else if i <? 62 then 48 + (i - 52)
   else if i =? 62 then 43
   else 47)%N.

Definition b64_index (c : code_unit) : option N :=
  (if (65 <=? c) && (c <=? 90) then Some (c - 65)
   else if (97 <=? c) && (c <=? 122) then Some (c - 71)
   else if (48 <=? c) && (c <=? 57) then Some (c + 4)
   else if c =? 43 then Some 62
   else if c =? 47 then Some 63
   else None)%N.

Definition equals_sign : code_unit := 61%N.

(** The bits of the input, six at a time; the last group of one or two
    units gives two or three sextets, the missing bits being zero. *)
Fixpoint to_sextets (u : list N) : list N :=
  match u with
  | a :: b :: c :: rest =>
      let n := (a * 65536 + b * 256 + c)%N in
      [n / 262144; (n / 4096) mod 64; (n / 64) mod 64; n mod 64]%N
        ++ to_sextets rest
  | [a; b] =>
      let n := (a * 65536 + b * 256)%N in
      [n / 262144; (n / 4096) mod 64; (n / 64) mod 64]%N
  | [a] =>
      let n := (a * 65536)%N in
      [n / 262144; (n / 4096) mod 64]%N
  | [] => []
  end.

Definition padding (u : list N) : jsstring :=
  match length u mod 3 with
  | 1 => [equals_sign; equals_sign]
  | 2 => [equals_sign]
  | _ => []
  end.

(** [btoa]: refuses a unit above 255, encodes the others. *)
Definition btoa (s : jsstring) : dom jsstring :=
  if existsb (fun c => (255 <? c)%N) s then InvalidCharacterError
  else Returns (map b64_char (to_sextets s) ++ padding s).

Definition is_ascii_whitespace (c : code_unit) : bool :=
  ((c =? 9) || (c =? 10) || (c =? 12) || (c =? 13) || (c =? 32))%N.

(** One or two equals signs at the end of a text whose length is a
    multiple of four are dropped. *)
Definition strip_padding (s : jsstring) : jsstring :=
  if length s mod 4 =? 0 then
    match rev s with
    | c1 :: c2 :: r =>
        if cu_eqb c1 equals_sign then
          if cu_eqb c2 equals_sign then rev r else rev (c2 :: r)
        else s
    | _ => s
    end
  else s.

Fixpoint from_chars (s : jsstring) : option (list N) :=
  match s with
  | [] => Some []
  | c :: s' =>
      match b64_index c, from_chars s' with
      | Some i, Some v => Some (i :: v)
      | _, _ => None
      end
  end.

(** Sextets back to units of eight bits; the two or four bits left over
    at the end are dropped. *)
Fixpoint from_sextets (v : list N) : list N :=
  match v with
  | a :: b :: c :: d :: rest =>
      let n := (((a * 64 + b) * 64 + c) * 64 + d)%N in
      [n / 65536; (n / 256) mod 256; n mod 256]%N ++ from_sextets rest
  | [a; b; c] =>
      let n := (((a * 64 + b) * 64 + c) / 4)%N in
      [n / 256; n mod 256]%N
  | [a; b] => [(a * 64 + b) / 16]%N
  | _ => []
  end.

(** [atob]: the forgiving decoding. *)
Definition atob (data : jsstring) : dom jsstring :=
  let d := filter (fun c => negb (is_ascii_whitespace c)) data in
  let d := strip_padding d in
  if length d mod 4 =? 1 then InvalidCharacterError
  else match from_chars d with
       | None => InvalidCharacterError
       | Some v => Returns (from_sextets v)
       end.

(** A Uint8Array is a list of bytes.  Writing a number into one keeps it
    modulo 256. *)
Definition to_uint8 (c : N) : Byte.byte :=
  match Byte.of_N (c mod 256) with
  | Some b => b
  | None => Byte.x00
  end.

(** [encode]: the loop appends [String.fromCharCode(bytes[i])] to
    [binary], then [btoa]. *)
Definition encode (bytes : list Byte.byte) : dom jsstring :=
  let binary := fold_left (fun binary b => binary ++ [Byte.to_N b]) bytes [] in
  btoa binary.

(** [decode]: [atob], then the units of the result written one by one
    into a Uint8Array of the same length. *)
Definition decode (base64 : jsstring) : dom (list Byte.byte) :=
  match atob base64 with
  | InvalidCharacterError => InvalidCharacterError
  | Returns binaryString => Returns (map to_uint8 binaryString)
  end.

End Base64.

Import Base64.

(** ** The script tab: files, generation and what the uploader passes on *)

Module ScriptTab.

Record File : Type := {
  file_type : jsstring
}.

(** types.ts *)
Record ProcessingState : Type := {
  isProcessing : bool;
  step : number;
  message : jsstring
}.

(** The state the script tab reads and writes. *)
Record TabState : Type := {
  videoFile : option File;
  videoUrl : option jsstring;
  appState : AppState;
  processing : ProcessingState
}.

Definition initial : TabState :=
  {| videoFile := None;
     videoUrl := None;
     appState := {| script := None; error := None |};
     processing := {| isProcessing := false; step := of_Z 0; message := [] |} |}.

Definition with_app (a : AppState) (st : TabState) : TabState :=
  {| videoFile := videoFile st; videoUrl := videoUrl st;
     appState := a; processing := processing st |}.

Definition setProcessing (p : ProcessingState) (st : TabState) : TabState :=
  {| videoFile := videoFile st; videoUrl := videoUrl st;
     appState := appState st; processing := p |}.

(** [handleFileSelect]; [url] is what [URL.createObjectURL] gives for the
    file. *)
Definition handleFileSelect (file : File) (url : jsstring) (st : TabState)
  : TabState :=
  {| videoFile := Some file;
     videoUrl := Some url;
     appState := setError None (setScript None (appState st));
     processing := processing st |}.

Definition comma : code_unit := 44%N.

(** The [onload] of [fileToBase64]: what the promise resolves with, [None]
    for [undefined]. *)
Definition fileToBase64_onload (result : jsstring) : option jsstring :=
  nth_error (split [comma] result) 1.

(** How the two awaited calls of [generateTamilScript] end: one of them
    rejects with an error of the given message, or the response arrives,
    with or without a text. *)
Inductive generation : Type :=
| Rejected (err_message : jsstring)
| Responded (text : option jsstring).

Definition processing_started : ProcessingState :=
  {| isProcessing := true; step := of_Z 1;
     message := str "Performing Global Video Analysis (00:00 - END)..." |}.

Definition processing_stopped : ProcessingState :=
  {| isProcessing := false; step := of_Z 0; message := [] |}.

(** [generateTamilScript], from the click to the last state update.
    [message_of] is the text the engine gives an exception. *)
Definition generateTamilScript (message_of : js_error -> jsstring)
           (outcome : generation) (st : TabState) : TabState :=
  match videoFile st with
  | None => st
  | Some _ =>
      let st1 := with_app (setError None (appState st))
                          (setProcessing processing_started st) in
      match outcome with
      | Responded text =>
          let rawText :=
            match text with
            | Some t => if is_empty t then [] else t
            | None => []
            end in
          match parseScript rawText (appState st1) with
          | Normal a => setProcessing processing_stopped (with_app a st1)
          | Throw e =>
              setProcessing processing_stopped
                (with_app (setError (Some (message_of e)) (appState st1)) st1)
          end
      | Rejected m =>
          setProcessing processing_stopped
            (with_app (setError (Some m) (appState st1)) st1)
      end
  end.

(** VideoUploader: a drop passes on its first file when that is a video;
    the file input passes on its first file, whatever it is. *)
Definition handleDrop (files : list File) : option File :=
  match files with
  | file :: _ =>
      if starts_with (str "video/") (file_type file) then Some file else None
  | [] => None
  end.

Definition handleFileChange (files : option (list File)) : option File :=
  match files with
  | Some (file :: _) => Some file
  | _ => None
  end.

(** What can happen on the tab. *)
Inductive event : Type :=
| Drop (files : list File) (url : jsstring)
| Change (files : option (list File)) (url : jsstring)
| Generate (outcome : generation).

Definition on_file (selected : option File) (url : jsstring) (st : TabState)
  : TabState :=
  match selected with
  | Some file => handleFileSelect file url st
  | None => st
  end.

Definition react (message_of : js_error -> jsstring) (st : TabState)
           (e : event) : TabState :=
  match e with
  | Drop files url => on_file (handleDrop files) url st
  | Change files url => on_file (handleFileChange files) url st
  | Generate outcome => generateTamilScript message_of outcome st
  end.

Definition run (message_of : js_error -> jsstring) (events : list event)
  : TabState :=
  fold_left (react message_of) events initial.

(** What every reachable state of the tab satisfies. *)
Definition tab_invariant (st : TabState) : Prop :=
  script (appState st) <> Some []
  /\ (script (appState st) <> None -> videoFile st <> None)
  /\ (videoFile st = None <-> videoUrl st = None)
  /\ isProcessing (processing st) = false.

End ScriptTab.

Import ScriptTab.

(** ** The styled prompt of generateVideo *)

Module Veo.

Record VideoStyle : Type := {
  id : jsstring;
  label : jsstring;
  prompt : jsstring
}.

Definition VIDEO_STYLES : list VideoStyle :=
  [ {| id := str "none"; label := str "Default"; prompt := [] |};
    {| id := str "cinematic"; label := str "Cinematic";
       prompt := str "Cinematic lighting, high production value, 8k, professional grading" |};
    {| id := str "anime"; label := str "Studio Ghibli Anime";
       prompt := str "Hand-drawn anime style, vibrant colors, painterly backgrounds, Studio Ghibli aesthetic" |};
    {| id := str "noir"; label := str "Film Noir";
       prompt := str "High contrast black and white, dramatic shadows, moody atmosphere, classic film grain" |};
    {| id := str "cyberpunk"; label := str "Cyberpunk";
       prompt := str "Neon lights, futuristic rainy atmosphere, high-tech gritty textures, electric blue and hot pink hues" |};
    {| id := str "photorealistic"; label := str "Photorealistic";
       prompt := str "Ultra-realistic textures, natural lighting, shot on 35mm lens, highly detailed" |};
    {| id := str "3d-render"; label := str "3D Animation";
       prompt := str "Disney Pixar style 3D render, expressive characters, soft global illumination" |} ].

(** [===] on two strings *)
Fixpoint strict_equal (a b : jsstring) : bool :=
  match a, b with
  | [], [] => true
  | x :: a', y :: b' => cu_eqb x y && strict_equal a' b'
  | _, _ => false
  end.

(** The prompt sent with a generation, the template of line 329:
    [VIDEO_STYLES.find(s => s.id === videoStyle)?.prompt || ''], a space,
    then the prompt typed.  The lookup is followed by the optional chaining
    [?.]: when no style has the id, [find] gives [undefined], [?.prompt]
    gives [undefined] too and throws nothing, and [|| ''] turns that, like
    the empty text of the style [none], into the empty string. *)
Definition styledPrompt (videoStyle videoPrompt : jsstring) : jsstring :=
  match find (fun s => strict_equal (id s) videoStyle) VIDEO_STYLES with
  | Some s => if is_empty (prompt s) then [] else prompt s
  | None => []
  end ++ str " " ++ videoPrompt.

End Veo.

(** ** Live transcription *)

Module Live.

Record LiveState : Type := {
  isLiveTranscribing : bool;
  transcriptionResult : jsstring;
  transcriptionBuffer : jsstring;
  liveError : option jsstring
}.

Definition mounted : LiveState :=
  {| isLiveTranscribing := false; transcriptionResult := [];
     transcriptionBuffer := []; liveError := None |}.

(** How a click that starts listening goes: everything succeeds, or
    something throws before the state is touched (no microphone), or
    after it (the connection). *)
Inductive start_outcome : Type :=
| Started
| FailedEarly (err_message : jsstring)
| FailedLate (err_message : jsstring).

(** [startLiveTranscription] *)
Definition startLiveTranscription (o : start_outcome) (st : LiveState)
  : LiveState :=
  if isLiveTranscribing st then
    {| isLiveTranscribing := false;
       transcriptionResult := transcriptionResult st;
       transcriptionBuffer := transcriptionBuffer st;
       liveError := liveError st |}
  else
    match o with
    | Started =>
        {| isLiveTranscribing := true; transcriptionResult := [];
           transcriptionBuffer := transcriptionBuffer st;
           liveError := liveError st |}
    | FailedEarly m =>
        {| isLiveTranscribing := false;
           transcriptionResult := transcriptionResult st;
           transcriptionBuffer := transcriptionBuffer st;
           liveError := Some m |}
    | FailedLate m =>
        {| isLiveTranscribing := false; transcriptionResult := [];
           transcriptionBuffer := transcriptionBuffer st;
           liveError := Some m |}
    end.

(** The text a [+=] appends: [undefined] is appended as its name. *)
Definition appended (text : option jsstring) : jsstring :=
  match text with
  | Some t => t
  | None => str "undefined"
  end.

(** [onmessage]: [inputTranscription] is [None] when the message has
    none, and its [text] may be missing. *)
Definition onmessage (inputTranscription : option (option jsstring))
           (st : LiveState) : LiveState :=
  match inputTranscription with
  | Some text =>
      let buffer := transcriptionBuffer st ++ appended text in
      {| isLiveTranscribing := isLiveTranscribing st;
         transcriptionResult := buffer;
         transcriptionBuffer := buffer;
         liveError := liveError st |}
  | None => st
  end.

Definition onerror (st : LiveState) : LiveState :=
  {| isLiveTranscribing := false;
     transcriptionResult := transcriptionResult st;
     transcriptionBuffer := transcriptionBuffer st;
     liveError := Some (str "Transcription Failed.") |}.

Definition onclose (st : LiveState) : LiveState :=
  {| isLiveTranscribing := false;
     transcriptionResult := transcriptionResult st;
     transcriptionBuffer := transcriptionBuffer st;
     liveError := liveError st |}.

Inductive live_event : Type :=
| Click (o : start_outcome)
| Message (inputTranscription : option (option jsstring))
| SessionError
| SessionClose.

Definition live_react (st : LiveState) (e : live_event) : LiveState :=
  match e with
  | Click o => startLiveTranscription o st
  | Message m => onmessage m st
  | SessionError => onerror st
  | SessionClose => onclose st
  end.

Definition live_run (events : list live_event) : LiveState :=
  fold_left live_react events mounted.

(** The text an event brings. *)
Definition heard (e : live_event) : jsstring :=
  match e with
  | Message (Some text) => appended text
  | _ => []
  end.

End Live.

(** ** Tactics *)

(** Facts on ranges of code units, by linear arithmetic. *)
Ltac units :=
  unfold time_class, dot, is_digit, is_white_space, is_line_terminator,
    chr_matches, canonicalize, ascii_upper, cu_eqb,
    colon, c_dot, c_minus, c_plus, en_dash in *;
  repeat match goal with
         | H : _ = false |- _ => apply not_true_iff_false in H
         | |- _ = false => apply not_true_iff_false; intro
         end;
  rewrite ?orb_true_iff, ?andb_true_iff, ?negb_true_iff,
    ?N.eqb_eq, ?N.leb_le, ?N.ltb_lt in *;
  try lia.

(** The same, by cases on every comparison in sight. *)
Ltac bounds :=
  repeat match goal with
         | H : context [(?a <? ?b)%N] |- _ => destruct (N.ltb_spec a b)
         | H : context [(?a <=? ?b)%N] |- _ => destruct (N.leb_spec a b)
         | |- context [(?a <? ?b)%N] => destruct (N.ltb_spec a b)
         | |- context [(?a <=? ?b)%N] => destruct (N.leb_spec a b)
         end;
  cbn [andb orb negb] in *;
  rewrite ?N.eqb_eq in *;
  try discriminate; try reflexivity; try lia.

(** Divisions and remainders by constants. *)
Ltac euclid := zify; Z.to_euclidean_division_equations; lia.

(** * Properties *)

(** ** The model of the language: sanity checks *)

Example parseFloat_tenth :
  parseFloat (str "0.1") = S754_finite false 7205759403792794 (-56).
Proof. vm_compute. reflexivity. Qed.

Example parseFloat_1e23 :
  parseFloat (str "1e23") = S754_finite false 5960464477539062 24.
Proof. vm_compute. reflexivity. Qed.

Example parseFloat_misc :
  parseFloat (str "  -12.5e1xyz") = SFopp (of_Z 125)
  /\ parseFloat (str ".5") = dyadic 1 (-1)
  /\ parseFloat (str "5.") = of_Z 5
  /\ parseFloat (str ".") = NaN
  /\ parseFloat (str "1e") = of_Z 1
  /\ parseFloat (str "-0") = S754_zero true
  /\ parseFloat (str "Infinityx") = S754_infinity false
  /\ parseFloat (str "9007199254740993") = of_Z 9007199254740992
  /\ parseFloat (str "1e400") = S754_infinity false.
Proof. vm_compute. repeat split. Qed.

(** The scenarios of the specification: the round trip, the same with a
    hyphen, a block with an action only. *)
Example decode_round_trip :
  parseScript_lines (kumar_en ++ delimiter) = Normal [kumar_line]
  /\ parseScript_lines (hy_range ++ kumar_fields ++ delimiter)
     = Normal [kumar_line].
Proof. split; reflexivity. Qed.

Example decode_action_only :
  exists l,
    parseScript_lines (action_block ++ delimiter) = Normal [l]
    /\ actionDescription l = Some (str "Camera pans over skyline")
    /\ versions l = {| spoken := []; tanglish := []; syncShort := [] |}.
Proof. eexists. split; [vm_compute; reflexivity|split; reflexivity]. Qed.

(** ** Strings *)

Section StringLemmas.

Lemma cu_eqb_eq (a b : code_unit) : cu_eqb a b = true <-> a = b.
Proof. apply N.eqb_eq. Qed.

Lemma cu_eqb_refl (a : code_unit) : cu_eqb a a = true.
Proof. apply N.eqb_refl. Qed.

Lemma starts_with_app (p r : jsstring) : starts_with p (p ++ r) = true.
Proof.
  induction p as [|x p IH]; simpl; [reflexivity|].
  now rewrite cu_eqb_refl.
Qed.

Lemma starts_with_inv (p s : jsstring) :
  starts_with p s = true -> exists r, s = p ++ r.
Proof.
  revert s; induction p as [|x p IH]; intros s H.
  - now exists s.
  - destruct s as [|y s]; simpl in H; [discriminate|].
    apply andb_true_iff in H as [Hxy Hp].
    apply cu_eqb_eq in Hxy; subst y.
    destruct (IH _ Hp) as [r ->]. now exists r.
Qed.

(** Only the first [length p] units of the text matter. *)
Lemma starts_with_more (p t r : jsstring) :
  length p <= length t -> starts_with p (t ++ r) = starts_with p t.
Proof.
  revert t; induction p as [|x p IH]; intros t Hl; [reflexivity|].
  destruct t as [|y t]; simpl in *; [lia|].
  rewrite IH by lia. reflexivity.
Qed.

Lemma indexOf_bound (sep s : jsstring) (j : nat) :
  indexOf sep s = Some j -> j + length sep <= length s.
Proof.
  revert j; induction s as [|c s IH]; intros j; simpl.
  - destruct (starts_with sep []) eqn:E; [|discriminate].
    intros [= <-]. destruct sep; [simpl; lia|discriminate].
  - destruct (starts_with sep (c :: s)) eqn:E.
    + intros [= <-]. apply starts_with_inv in E as [r Hr].
      apply (f_equal (@length _)) in Hr. rewrite length_app in Hr.
      simpl in *. lia.
    + destruct (indexOf sep s) as [j'|]; simpl; [|discriminate].
      intros [= <-]. specialize (IH _ eq_refl). lia.
Qed.

(** The rounds [split_loop] is given beyond [length s] are never used. *)
Lemma split_loop_fuel (c : code_unit) (sep : jsstring) :
  forall f1 f2 s, length s <= f1 -> length s <= f2 ->
    split_loop f1 (c :: sep) s = split_loop f2 (c :: sep) s.
Proof.
  induction f1 as [|f1 IH]; intros f2 s H1 H2.
  - destruct s; [|simpl in H1; lia].
    destruct f2; reflexivity.
  - destruct f2 as [|f2].
    + destruct s; [|simpl in H2; lia]. reflexivity.
    + cbn [split_loop].
      destruct (indexOf (c :: sep) s) as [j|] eqn:E; [|reflexivity].
      f_equal. apply indexOf_bound in E. simpl in E.
      apply IH; rewrite length_skipn; simpl; lia.
Qed.

(** The loop of [split], one round at a time. *)
Lemma split_unfold (c : code_unit) (sep s : jsstring) :
  split (c :: sep) s =
  match indexOf (c :: sep) s with
  | None => [s]
  | Some j => firstn j s :: split (c :: sep) (skipn (j + length (c :: sep)) s)
  end.
Proof.
  unfold split. destruct s as [|x s]; [reflexivity|].
  cbn [length split_loop].
  destruct (indexOf (c :: sep) (x :: s)) as [j|] eqn:E; [|reflexivity].
  f_equal. apply indexOf_bound in E.
  apply split_loop_fuel; rewrite ?length_skipn; cbn [length] in *; lia.
Qed.

Lemma indexOf_unfold (sep s : jsstring) :
  indexOf sep s =
  if starts_with sep s then Some 0
  else match s with
       | [] => None
       | _ :: s' => option_map S (indexOf sep s')
       end.
Proof. destruct s; reflexivity. Qed.

Lemma indexOf_app_found (sep b r : jsstring) :
  indexOf sep (b ++ sep) = Some (length b) ->
  indexOf sep (b ++ sep ++ r) = Some (length b).
Proof.
  induction b as [|x b IH].
  - intros _. simpl. now rewrite indexOf_unfold, starts_with_app.
  - rewrite indexOf_unfold. rewrite (indexOf_unfold sep ((x :: b) ++ sep ++ r)).
    rewrite (app_assoc (x :: b) sep r).
    rewrite (starts_with_more sep ((x :: b) ++ sep) r)
      by (rewrite length_app; lia).
    destruct (starts_with sep ((x :: b) ++ sep)) eqn:E; [discriminate|].
    rewrite <- app_assoc. simpl.
    destruct (indexOf sep (b ++ sep)) as [j|]; simpl; [|discriminate].
    intros [= ->]. now rewrite IH.
Qed.

Lemma split_cons (c : code_unit) (sep b r : jsstring) :
  indexOf (c :: sep) (b ++ c :: sep) = Some (length b) ->
  split (c :: sep) (b ++ (c :: sep) ++ r) = b :: split (c :: sep) r.
Proof.
  intros H. rewrite split_unfold, (indexOf_app_found _ _ r H).
  rewrite firstn_app, firstn_all, Nat.sub_diag, firstn_O, app_nil_r.
  f_equal. f_equal.
  rewrite app_assoc, <- (length_app b (c :: sep)), skipn_app, skipn_all.
  now rewrite Nat.sub_diag.
Qed.

Lemma indexOf_char_absent (c : code_unit) (s : jsstring) :
  ~ In c s -> indexOf [c] s = None.
Proof.
  induction s as [|x s IH]; intros H; [reflexivity|].
  simpl. destruct (cu_eqb c x) eqn:E.
  - apply cu_eqb_eq in E. subst. exfalso. apply H. now left.
  - simpl. rewrite IH; [reflexivity|]. intros Hin. apply H. now right.
Qed.

Lemma indexOf_char_first (c : code_unit) (a : jsstring) :
  ~ In c a -> indexOf [c] (a ++ [c]) = Some (length a).
Proof.
  induction a as [|x a IH]; intros H; simpl.
  - now rewrite cu_eqb_refl.
  - destruct (cu_eqb c x) eqn:E.
    + apply cu_eqb_eq in E. subst. exfalso. apply H. now left.
    + simpl. rewrite IH; [reflexivity|]. intros Hin. apply H. now right.
Qed.

Lemma split_char_none (c : code_unit) (s : jsstring) :
  ~ In c s -> split [c] s = [s].
Proof. intros H. now rewrite split_unfold, indexOf_char_absent. Qed.

Lemma split_char_cons (c : code_unit) (a r : jsstring) :
  ~ In c a -> split [c] (a ++ c :: r) = a :: split [c] r.
Proof.
  intros H. apply (split_cons c [] a r). now apply indexOf_char_first.
Qed.

Lemma count_split (c : code_unit) (n : nat) (s : jsstring) :
  count_occ N.eq_dec s c = S n ->
  exists a r, s = a ++ c :: r /\ ~ In c a /\ count_occ N.eq_dec r c = n.
Proof.
  induction s as [|x s IH]; simpl; [discriminate|].
  destruct (N.eq_dec x c) as [->|Hne].
  - intros [= H]. exists [], s. repeat split; auto.
  - intros H. destruct (IH H) as (a & r & -> & Ha & Hr).
    exists (x :: a), r. repeat split; auto.
    intros [Hx|Hin]; [now apply Hne|now apply Ha].
Qed.

Lemma split_char_length (c : code_unit) (s : jsstring) :
  length (split [c] s) = S (count_occ N.eq_dec s c).
Proof.
  remember (count_occ N.eq_dec s c) as n eqn:Hn. symmetry in Hn.
  revert s Hn; induction n as [|n IH]; intros s Hn.
  - apply count_occ_not_In in Hn. now rewrite split_char_none.
  - destruct (count_split _ _ _ Hn) as (a & r & -> & Ha & Hr).
    rewrite split_char_cons by assumption. cbn [length]. now rewrite (IH r Hr).
Qed.

End StringLemmas.

(** ** handleSeek *)

Section HandleSeek.

Lemma count_colons_absent (s : jsstring) : count_colons s = 0 -> ~ In colon s.
Proof. apply count_occ_not_In. Qed.

Lemma parts_of_one (s : jsstring) :
  count_colons s = 0 -> split [colon] s = [s].
Proof. intros H. apply split_char_none. now apply count_colons_absent. Qed.

Lemma parts_of_more (n : nat) (time : jsstring) :
  count_colons time = S n ->
  exists a r, time = a ++ colon :: r /\ count_colons a = 0
              /\ count_colons r = n
              /\ split [colon] time = a :: split [colon] r.
Proof.
  intros H. destruct (count_split _ _ _ H) as (a & r & -> & Ha & Hr).
  exists a, r. repeat split; auto.
  - now apply count_occ_not_In.
  - now apply split_char_cons.
Qed.

(** Four parts or more: none of the three tests on [parts.length] holds. *)
Lemma seconds_of_many_parts (time : jsstring) :
  3 <= count_colons time -> handleSeek_seconds time = of_Z 0.
Proof.
  intros H. unfold handleSeek_seconds.
  pose proof (split_char_length colon time) as L.
  fold (count_colons time) in L.
  rewrite <- (length_map parseFloat) in L.
  destruct (map parseFloat (split [colon] time)) as [|p0 [|p1 [|p2 [|p3 ps]]]];
    simpl in L; try lia.
  reflexivity.
Qed.

Lemma handleSeek_cases (video : HTMLVideoElement) (time : jsstring) :
  handleSeek (Some video) time =
  if isNaN (handleSeek_seconds time) then Normal (Some video)
  else if is_finite (handleSeek_seconds time) then
         Normal (Some {| currentTime := handleSeek_seconds time;
                         play_calls := S (play_calls video) |})
       else Throw TypeError.
Proof.
  unfold handleSeek, set_currentTime.
  destruct (isNaN (handleSeek_seconds time)); [reflexivity|]. cbn [negb].
  now destruct (is_finite (handleSeek_seconds time)).
Qed.

(** A total that is an infinity: the assignment throws, nothing is set and
    [play] is not reached. *)
Example handleSeek_infinite :
  handleSeek (Some a_video) (str "Infinity") = Throw TypeError
  /\ handleSeek (Some a_video) (str "0:1e999") = Throw TypeError
  /\ handleSeek (Some a_video) (str "-Infinity") = Throw TypeError.
Proof. repeat split. Qed.

(** C1. The seconds [handleSeek] computes follow the number of colons of
    the timestamp: none, the whole text read by [parseFloat]; one, minutes
    times 60 plus seconds; two, hours times 3600 plus minutes times 60 plus
    seconds.  When that total is NaN the timestamp is invalid: nothing is
    assigned, [play] is not called and nothing is thrown.  A total that is
    a finite number is assigned and [play] is called once; a total that is
    an infinity makes the assignment throw.  The six timestamps of the
    specification give 90, 90, 3690, 12.5, NaN and NaN. *)
Theorem handleSeek_seconds_by_colons :
  (forall time,
      match count_colons time with
      | 0 => handleSeek_seconds time = parseFloat time
      | 1 => exists m s,
               time = m ++ colon :: s
               /\ count_colons m = 0 /\ count_colons s = 0
               /\ handleSeek_seconds time
                  = add (mul (parseFloat m) (of_Z 60)) (parseFloat s)
      | 2 => exists h m s,
               time = h ++ colon :: m ++ colon :: s
               /\ count_colons h = 0 /\ count_colons m = 0 /\ count_colons s = 0
               /\ handleSeek_seconds time
                  = add (add (mul (parseFloat h) (of_Z 3600))
                             (mul (parseFloat m) (of_Z 60)))
                        (parseFloat s)
      | _ => True
      end)
  /\ (forall time video,
         handleSeek (Some video) time =
         if isNaN (handleSeek_seconds time) then Normal (Some video)
         else if is_finite (handleSeek_seconds time) then
                Normal (Some {| currentTime := handleSeek_seconds time;
                                play_calls := S (play_calls video) |})
              else Throw TypeError)
  /\ handleSeek_seconds (str "90") = of_Z 90
  /\ handleSeek_seconds (str "1:30") = of_Z 90
  /\ handleSeek_seconds (str "1:01:30") = of_Z 3690
  /\ handleSeek_seconds (str "12.5") = dyadic 25 (-1)
  /\ isNaN (handleSeek_seconds (str "abc")) = true
  /\ isNaN (handleSeek_seconds (str "")) = true.
Proof.
  split; [|split; [intros; apply handleSeek_cases|]].
  - intros time.
    destruct (count_colons time) as [|[|[|n]]] eqn:Hc; [| | |exact I].
    + unfold handleSeek_seconds. now rewrite parts_of_one.
    + destruct (parts_of_more _ _ Hc) as (m & s & -> & Hm & Hs & Hsp).
      exists m, s. repeat split; auto.
      unfold handleSeek_seconds. now rewrite Hsp, (parts_of_one _ Hs).
    + destruct (parts_of_more _ _ Hc) as (h & r & -> & Hh & Hr & Hsp).
      destruct (parts_of_more _ _ Hr) as (m & s & -> & Hm & Hs & Hsp').
      exists h, m, s. repeat split; auto.
      unfold handleSeek_seconds. now rewrite Hsp, Hsp', (parts_of_one _ Hs).
  - vm_compute. repeat split.
Qed.

(** C8. A timestamp whose total is NaN leaves the video element as it was:
    no position is set, [play] is not called and nothing is thrown; with no
    element mounted there is nothing to do either. *)
Theorem handleSeek_invalid_is_noop
        (videoRef_current : option HTMLVideoElement) (time : jsstring) :
  isNaN (handleSeek_seconds time) = true ->
  handleSeek videoRef_current time = Normal videoRef_current.
Proof.
  intros H. destruct videoRef_current as [video|]; [|reflexivity].
  now rewrite handleSeek_cases, H.
Qed.

Lemma handleSeek_invalid_is_noop_witness :
  isNaN (handleSeek_seconds (str "1:xx")) = true
  /\ handleSeek (Some a_video) (str "1:xx") = Normal (Some a_video).
Proof.
  split; [reflexivity|].
  apply (handleSeek_invalid_is_noop
           (Some a_video) (str "1:xx")).
  reflexivity.
Defined.

(** C10. With three colons or more the timestamp is not refused: the
    seconds stay at the initial 0, the position of the mounted video
    element is set to 0 and [play] is called once, with nothing thrown. *)
Theorem handleSeek_many_colons (video : HTMLVideoElement) (time : jsstring) :
  3 <= count_colons time ->
  handleSeek_seconds time = of_Z 0
  /\ isNaN (handleSeek_seconds time) = false
  /\ handleSeek (Some video) time
     = Normal (Some {| currentTime := of_Z 0;
                       play_calls := S (play_calls video) |}).
Proof.
  intros H. pose proof (seconds_of_many_parts time H) as E.
  rewrite handleSeek_cases, E. repeat split.
Qed.

Lemma handleSeek_many_colons_witness :
  3 <= count_colons (str "1:02:03:04")
  /\ handleSeek_seconds (str "1:02:03:04") = of_Z 0
  /\ isNaN (handleSeek_seconds (str "1:02:03:04")) = false
  /\ handleSeek (Some a_video) (str "1:02:03:04")
     = Normal (Some {| currentTime := of_Z 0;
                       play_calls := S (play_calls a_video) |}).
Proof.
  split; [vm_compute; lia|].
  apply (handleSeek_many_colons a_video (str "1:02:03:04")).
  vm_compute. lia.
Defined.

End HandleSeek.

(** ** The matcher *)

Section MatcherLemmas.

Lemma length_drop_while (p : code_unit -> bool) (s : jsstring) :
  length (drop_while p s) <= length s.
Proof.
  induction s as [|c s IH]; simpl; [lia|].
  destruct (p c); simpl; lia.
Qed.

Lemma take_drop_while (p : code_unit -> bool) (s : jsstring) :
  take_while p s ++ drop_while p s = s.
Proof.
  induction s as [|c s IH]; simpl; [reflexivity|].
  destruct (p c); simpl; [now rewrite IH|reflexivity].
Qed.

Lemma firstn_drop_while (p : code_unit -> bool) (s : jsstring) :
  firstn (length s - length (drop_while p s)) s = take_while p s.
Proof.
  induction s as [|c s IH]; [reflexivity|].
  cbn [take_while drop_while]. destruct (p c) eqn:E.
  - cbn [length]. rewrite Nat.sub_succ_l by apply length_drop_while.
    rewrite firstn_cons. now rewrite IH.
  - now rewrite Nat.sub_diag.
Qed.

Lemma take_while_all (p : code_unit -> bool) (a r : jsstring) :
  forallb p a = true ->
  match r with [] => True | c :: _ => p c = false end ->
  take_while p (a ++ r) = a /\ drop_while p (a ++ r) = r.
Proof.
  intros Ha Hr. induction a as [|x a IH]; simpl in *.
  - destruct r as [|c r]; simpl; [auto|]. now rewrite Hr.
  - apply andb_true_iff in Ha as [Hx Ha]. rewrite Hx.
    destruct (IH Ha) as [-> ->]. auto.
Qed.

Lemma forallb_take_while (p : code_unit -> bool) (s : jsstring) :
  forallb p (take_while p s) = true.
Proof.
  induction s as [|c s IH]; simpl; [reflexivity|].
  destruct (p c) eqn:E; simpl; [now rewrite E|reflexivity].
Qed.

Lemma drop_while_head (p : code_unit -> bool) (s : jsstring) :
  match drop_while p s with [] => True | c :: _ => p c = false end.
Proof.
  induction s as [|c s IH]; simpl; [exact I|].
  destruct (p c) eqn:E; [exact IH|exact E].
Qed.

Variable A : Type.

(** When the continuation refuses every text that begins inside the run,
    the only split tried with success is the longest. *)
Lemma star_m_committed (p : code_unit -> bool) (k : jsstring -> option A) :
  (forall c s', p c = true -> k (c :: s') = None) ->
  forall s, star_m p s k = k (drop_while p s).
Proof.
  intros Hk. induction s as [|c s IH]; simpl; [reflexivity|].
  destruct (p c) eqn:E; [|reflexivity].
  rewrite IH. destruct (k (drop_while p s)); [reflexivity|].
  now apply Hk.
Qed.

(** When the continuation accepts after the longest run, that is the
    answer. *)
Lemma star_m_greedy (p : code_unit -> bool) (k : jsstring -> option A) :
  forall s, k (drop_while p s) <> None -> star_m p s k = k (drop_while p s).
Proof.
  induction s as [|c s IH]; simpl; intros H; [reflexivity|].
  destruct (p c) eqn:E; [|reflexivity].
  rewrite (IH H). destruct (k (drop_while p s)); [reflexivity|contradiction].
Qed.

Lemma rmatch_lit (ic : bool) (l : jsstring) (rs : list regex)
      (k : jsstring -> list jsstring -> option A) :
  forall s caps,
    rmatch ic (seq (lit l ++ rs)) s caps k =
    match strip ic l s with
    | Some s' => rmatch ic (seq rs) s' caps k
    | None => None
    end.
Proof.
  induction l as [|pc l IH]; intros s caps; [reflexivity|].
  simpl. destruct s as [|c s]; [reflexivity|].
  destruct (chr_matches ic pc c); [apply IH|reflexivity].
Qed.

Lemma rmatch_group_plus (ic : bool) (p : code_unit -> bool) (rs : list regex)
      (k : jsstring -> list jsstring -> option A) :
  (forall c s' caps, p c = true -> rmatch ic (seq rs) (c :: s') caps k = None) ->
  forall s caps,
    rmatch ic (seq (Group (Plus p) :: rs)) s caps k =
    match plus_run p s with
    | Some (a, s') => rmatch ic (seq rs) s' (caps ++ [a]) k
    | None => None
    end.
Proof.
  intros Hk s caps. destruct s as [|c s]; [reflexivity|].
  cbn [seq fold_right rmatch plus_run].
  destruct (p c) eqn:E; [|reflexivity].
  rewrite star_m_committed by (intros; now apply Hk).
  cbn [length]. rewrite Nat.sub_succ_l by apply length_drop_while.
  rewrite firstn_cons. now rewrite firstn_drop_while.
Qed.

End MatcherLemmas.

(** ** Classes of units *)

Section Classes.

Lemma time_class_range (c : code_unit) :
  time_class c = true -> (46 <= c <= 58)%N.
Proof. intros H. units. Qed.

Lemma time_class_not_space (c : code_unit) :
  time_class c = true -> is_white_space c = false.
Proof. intros H. apply time_class_range in H. units. Qed.

Lemma time_class_other (x c : code_unit) :
  time_class c = true -> (x < 46 \/ 58 < x)%N -> chr_matches false x c = false.
Proof. intros H Hx. apply time_class_range in H. units. Qed.

Lemma chr_matches_exact (x c : code_unit) :
  chr_matches false x c = true <-> x = c.
Proof. unfold chr_matches, canonicalize. apply cu_eqb_eq. Qed.

Lemma strip_exact (l s r : jsstring) :
  strip false l s = Some r <-> s = l ++ r.
Proof.
  revert s; induction l as [|x l IH]; intros s; simpl.
  - split; [now intros [= ->]|now intros ->].
  - destruct s as [|c s]; [split; discriminate|].
    destruct (chr_matches false x c) eqn:E.
    + apply chr_matches_exact in E. subst c. rewrite IH.
      split; [now intros ->|now intros [= ->]].
    + split; [discriminate|]. intros [= -> _].
      assert (chr_matches false x x = true) by now apply chr_matches_exact.
      congruence.
Qed.

Lemma plus_run_inv (p : code_unit -> bool) (s a r : jsstring) :
  plus_run p s = Some (a, r) ->
  a <> [] /\ forallb p a = true /\ s = a ++ r.
Proof.
  destruct s as [|c s]; simpl; [discriminate|].
  destruct (p c) eqn:E; [|discriminate].
  intros [= <- <-]. repeat split.
  - discriminate.
  - simpl. now rewrite E, forallb_take_while.
  - simpl. now rewrite take_drop_while.
Qed.

Lemma plus_run_intro (p : code_unit -> bool) (a r : jsstring) :
  a <> [] -> forallb p a = true ->
  match r with [] => True | c :: _ => p c = false end ->
  plus_run p (a ++ r) = Some (a, r).
Proof.
  intros Hne Ha Hr. destruct a as [|x a]; [contradiction|].
  simpl in *. apply andb_true_iff in Ha as [Hx Ha]. rewrite Hx.
  now destruct (take_while_all p a r Ha Hr) as [-> ->].
Qed.

Lemma is_time_text_inv (a : jsstring) :
  is_time_text a = true <-> a <> [] /\ forallb time_class a = true.
Proof.
  unfold is_time_text. rewrite andb_true_iff.
  destruct a; simpl; intuition congruence.
Qed.

Lemma time_here_sound (d : code_unit) (s a b rest : jsstring) :
  time_here d s = Some (a, b, rest) ->
  is_time_text a = true /\ is_time_text b = true /\ s = range d a b ++ rest.
Proof.
  unfold time_here.
  destruct (strip false (str "[") s) as [s1|] eqn:E1; [|discriminate].
  destruct (plus_run time_class s1) as [[a' s2]|] eqn:E2; [|discriminate].
  destruct (strip false [32%N; d; 32%N] s2) as [s3|] eqn:E3; [|discriminate].
  destruct (plus_run time_class s3) as [[b' s4]|] eqn:E4; [|discriminate].
  destruct (strip false (str "]") s4) as [s5|] eqn:E5; [|discriminate].
  intros [= <- <- <-].
  apply strip_exact in E1, E3, E5.
  apply plus_run_inv in E2 as (Ha & Ha' & ->), E4 as (Hb & Hb' & ->).
  subst. repeat split; try (apply is_time_text_inv; now split).
  unfold range. now rewrite <- !app_assoc.
Qed.

Lemma time_here_complete (d : code_unit) (a b rest : jsstring) :
  is_time_text a = true -> is_time_text b = true ->
  time_here d (range d a b ++ rest) = Some (a, b, rest).
Proof.
  intros Ha Hb. apply is_time_text_inv in Ha as [Ha Ha'], Hb as [Hb Hb'].
  unfold time_here, range. rewrite <- !app_assoc.
  rewrite (proj2 (strip_exact (str "[") _ _) eq_refl).
  rewrite (plus_run_intro time_class a ([32%N; d; 32%N] ++ b ++ str "]" ++ rest)
             Ha Ha' eq_refl).
  rewrite (proj2 (strip_exact [32%N; d; 32%N] _ _) eq_refl).
  rewrite (plus_run_intro time_class b (str "]" ++ rest) Hb Hb' eq_refl).
  now rewrite (proj2 (strip_exact (str "]") _ _) eq_refl).
Qed.

End Classes.

(** ** The two kinds of pattern, in closed form *)

Section Patterns.

Lemma match_here_time (d : code_unit) (s : jsstring) :
  match_here (time_pattern d) s =
  match time_here d s with
  | Some (a, b, rest) => Some [firstn (length s - length rest) s; a; b]
  | None => None
  end.
Proof.
  unfold match_here, time_pattern, time_here. cbn [source ignoreCase].
  rewrite rmatch_lit.
  destruct (strip false (str "[") s) as [s1|]; [|reflexivity].
  change ([Group (Plus time_class)] ++ ?x) with (Group (Plus time_class) :: x).
  rewrite rmatch_group_plus.
  2:{ intros c s' caps Hc. cbn [app seq fold_right rmatch].
      now rewrite (time_class_other 32%N c) by (auto; lia). }
  destruct (plus_run time_class s1) as [[a s2]|]; [|reflexivity].
  change [Chr 32%N; Chr d; Chr 32%N] with (lit [32%N; d; 32%N]).
  rewrite rmatch_lit.
  destruct (strip false [32%N; d; 32%N] s2) as [s3|]; [|reflexivity].
  change ([Group (Plus time_class)] ++ ?x) with (Group (Plus time_class) :: x).
  rewrite rmatch_group_plus.
  2:{ intros c s' caps Hc. cbn [str map list_ascii_of_string lit seq fold_right rmatch].
      now rewrite (time_class_other _ c) by (auto; cbn; lia). }
  destruct (plus_run time_class s3) as [[b s4]|]; [|reflexivity].
  rewrite <- (app_nil_r (lit (str "]"))), rmatch_lit.
  destruct (strip false (str "]") s4) as [s5|]; reflexivity.
Qed.

Lemma match_here_label (label s : jsstring) :
  match_here (label_pattern label) s =
  match strip true (label ++ [colon]) s with
  | Some rest =>
      Some [firstn (length s
                    - length (drop_while dot (drop_while is_white_space rest))) s;
            rest_of_line rest]
  | None => None
  end.
Proof.
  unfold match_here, label_pattern. cbn [source ignoreCase].
  replace (lit label ++ [Chr colon; Star is_white_space; Group (Star dot)])
    with (lit (label ++ [colon]) ++ [Star is_white_space; Group (Star dot)])
    by (unfold lit; now rewrite map_app, <- app_assoc).
  rewrite rmatch_lit.
  destruct (strip true (label ++ [colon]) s) as [rest|]; [|reflexivity].
  cbn [seq fold_right rmatch].
  rewrite star_m_greedy; rewrite star_m_greedy; try discriminate.
  cbn [app]. now rewrite firstn_drop_while.
Qed.

Lemma exec_unfold (re : RegExp) (s : jsstring) :
  exec re s =
  match match_here re s with
  | Some m => Some m
  | None => match s with [] => None | _ :: s' => exec re s' end
  end.
Proof. destruct s; reflexivity. Qed.

Lemma after_first_label_unfold (label s : jsstring) :
  after_first_label label s =
  match strip true (label ++ [colon]) s with
  | Some rest => Some rest
  | None => match s with [] => None | _ :: s' => after_first_label label s' end
  end.
Proof. destruct s; reflexivity. Qed.

Lemma first_range_unfold (d : code_unit) (s : jsstring) :
  first_range d s =
  match time_here d s with
  | Some (a, b, _) => Some (a, b)
  | None => match s with [] => None | _ :: s' => first_range d s' end
  end.
Proof. destruct s; reflexivity. Qed.

(** A field of a block: the group of the leftmost match of its pattern,
    trimmed, or the default. *)
Lemma field_or_label (label dflt block : jsstring) :
  field_or (String_match block (label_pattern label)) dflt
  = Normal (field_value label dflt block).
Proof.
  unfold String_match, field_value.
  induction block as [|c block IH];
    rewrite exec_unfold, match_here_label, after_first_label_unfold;
    destruct (strip true (label ++ [colon]) _); try reflexivity.
  exact IH.
Qed.

(** The match array of a time pattern: the whole match and two groups. *)
Lemma exec_time (d : code_unit) (s : jsstring) :
  match String_match s (time_pattern d) with
  | Some tm => exists w a b, tm = [w; a; b] /\ first_range d s = Some (a, b)
  | None => first_range d s = None
  end.
Proof.
  unfold String_match.
  induction s as [|c s IH];
    rewrite exec_unfold, match_here_time, first_range_unfold;
    destruct (time_here d _) as [[[a b] rest]|]; eauto.
Qed.

End Patterns.

(** ** trim *)

Section Trim.

Lemma drop_while_nil (p : code_unit -> bool) (s : jsstring) :
  drop_while p s = [] -> forallb p s = true.
Proof.
  induction s as [|c s IH]; simpl; [reflexivity|].
  destruct (p c); [exact IH|discriminate].
Qed.

Lemma drop_while_id (p : code_unit -> bool) (s : jsstring) :
  match s with [] => True | c :: _ => p c = false end -> drop_while p s = s.
Proof. destruct s as [|c s]; simpl; [reflexivity|]. now intros ->. Qed.

Lemma forallb_rev (p : code_unit -> bool) (s : jsstring) :
  forallb p (rev s) = forallb p s.
Proof.
  induction s as [|c s IH]; simpl; [reflexivity|].
  rewrite forallb_app, IH. simpl. rewrite andb_true_r. apply andb_comm.
Qed.

Lemma trim_nil_blank (s : jsstring) :
  trim s = [] -> forallb is_white_space s = true.
Proof.
  unfold trim, trimEnd, trimStart. intros H.
  apply (f_equal (@rev _)) in H. rewrite rev_involutive in H. simpl in H.
  apply drop_while_nil in H. rewrite forallb_rev in H.
  pose proof (drop_while_head is_white_space s) as Hh.
  destruct (drop_while is_white_space s) as [|c r] eqn:E.
  - now apply drop_while_nil.
  - simpl in H. rewrite Hh in H. discriminate.
Qed.

(** A block that holds a unit that is not white space is not blank. *)
Lemma not_blank (c : code_unit) (s : jsstring) :
  In c s -> is_white_space c = false -> is_empty (trim s) = false.
Proof.
  intros Hin Hc. destruct (trim s) eqn:E; [|reflexivity].
  apply trim_nil_blank in E. rewrite forallb_forall in E.
  rewrite (E _ Hin) in Hc. discriminate.
Qed.

Lemma trim_time_text (a : jsstring) : is_time_text a = true -> trim a = a.
Proof.
  intros H. apply is_time_text_inv in H as [Hne Ha].
  unfold trim, trimEnd, trimStart.
  assert (Hhead : forall t, forallb time_class t = true ->
                            drop_while is_white_space t = t).
  { intros t Ht. apply drop_while_id. destruct t as [|c t]; [exact I|].
    simpl in Ht. apply andb_true_iff in Ht as [Hc _].
    now apply time_class_not_space. }
  rewrite (Hhead a Ha), Hhead by now rewrite forallb_rev.
  apply rev_involutive.
Qed.

End Trim.

(** ** One round of the loop *)

Section Block.

(** [parseBlock] throws on no block, and its result is [block_result]. *)
Lemma parseBlock_closed (block : jsstring) :
  parseBlock block = Normal (block_result block).
Proof.
  unfold parseBlock, block_result, block_times.
  destruct (is_empty (trim block)); [reflexivity|].
  unfold re_time_en, re_time_hy.
  pose proof (exec_time en_dash block) as He.
  pose proof (exec_time c_minus block) as Hh.
  assert (Hline : forall w a b,
    (st <- group_trim [w; a; b] 1 ;;
     en <- group_trim [w; a; b] 2 ;;
     pe <- field_or (String_match block re_speaker) (str "Unknown") ;;
     em <- field_or (String_match block re_emotion) (str "Neutral") ;;
     me <- field_or (String_match block re_meaning) [] ;;
     ac <- field_or (String_match block re_action) [] ;;
     di <- field_or (String_match block re_s) [] ;;
     sp <- field_or (String_match block re_s) [] ;;
     ta <- field_or (String_match block re_t) [] ;;
     sy <- field_or (String_match block re_l) [] ;;
     Normal (Some {| startTime := st; endTime := en; person := pe;
                     emotion := Some em; originalMeaning := Some me;
                     actionDescription := Some ac; dialogue := di;
                     versions := {| spoken := sp; tanglish := ta;
                                    syncShort := sy |};
                     confidenceScore := None |}))
    = Normal (Some (block_line block (a, b)))).
  { intros w a b.
    unfold re_speaker, re_emotion, re_meaning, re_action, re_s, re_t, re_l.
    rewrite !field_or_label. reflexivity. }
  destruct (String_match block (time_pattern en_dash)) as [tm|].
  - destruct He as (w & a & b & -> & ->). apply Hline.
  - rewrite He.
    destruct (String_match block (time_pattern c_minus)) as [tm|].
    + destruct Hh as (w & a & b & -> & ->). apply Hline.
    + now rewrite Hh.
Qed.

End Block.

(** ** The loop over the blocks *)

Section Loop.

Lemma parseBlocks_closed (blocks : list jsstring) :
  forall lines, parseBlocks blocks lines = Normal (lines ++ blocks_lines blocks).
Proof.
  induction blocks as [|b blocks IH]; intros lines; simpl.
  - now rewrite app_nil_r.
  - rewrite parseBlock_closed. simpl.
    destruct (block_result b) as [l|]; rewrite IH; [|reflexivity].
    now rewrite <- app_assoc.
Qed.

Lemma parseScript_lines_closed (text : jsstring) :
  parseScript_lines text = Normal (blocks_lines (split delimiter text)).
Proof. unfold parseScript_lines. now rewrite parseBlocks_closed. Qed.

Lemma blocks_lines_app (bs1 bs2 : list jsstring) :
  blocks_lines (bs1 ++ bs2) = blocks_lines bs1 ++ blocks_lines bs2.
Proof. apply flat_map_app. Qed.

Lemma first_range_inv (d : code_unit) (s a b : jsstring) :
  first_range d s = Some (a, b) ->
  is_time_text a = true /\ is_time_text b = true
  /\ exists pre post, s = pre ++ range d a b ++ post.
Proof.
  induction s as [|c s IH]; rewrite first_range_unfold;
    destruct (time_here d _) as [[[a' b'] rest]|] eqn:E.
  - intros [= <- <-]. apply time_here_sound in E as (Ha & Hb & ->).
    repeat split; auto. now exists [], rest.
  - discriminate.
  - intros [= <- <-]. apply time_here_sound in E as (Ha & Hb & ->).
    repeat split; auto. now exists [], rest.
  - intros H. destruct (IH H) as (Ha & Hb & pre & post & ->).
    repeat split; auto. now exists (c :: pre), post.
Qed.

Lemma first_range_found (d : code_unit) (a b post : jsstring) :
  is_time_text a = true -> is_time_text b = true ->
  forall pre, first_range d (pre ++ range d a b ++ post) <> None.
Proof.
  intros Ha Hb. induction pre as [|c pre IH]; rewrite first_range_unfold.
  - rewrite app_nil_l. now rewrite time_here_complete.
  - destruct (time_here d _) as [[[a' b'] rest]|]; [discriminate|exact IH].
Qed.

Lemma block_times_inv (block a b : jsstring) :
  block_times block = Some (a, b) ->
  is_time_text a = true /\ is_time_text b = true /\ contains_range block.
Proof.
  unfold block_times. intros H.
  destruct (first_range en_dash block) as [t|] eqn:E.
  - injection H as ->.
    apply first_range_inv in E as (Ha & Hb & pre & post & ->).
    repeat split; auto. exists pre, en_dash, a, b, post.
    repeat split; auto. now left.
  - apply first_range_inv in H as (Ha & Hb & pre & post & ->).
    repeat split; auto. exists pre, c_minus, a, b, post.
    repeat split; auto. now right.
Qed.

Lemma contains_range_times (block : jsstring) :
  contains_range block -> block_times block <> None.
Proof.
  intros (pre & d & a & b & post & Hd & Ha & Hb & ->). unfold block_times.
  destruct Hd as [-> | ->].
  - pose proof (first_range_found en_dash a b post Ha Hb pre).
    now destruct (first_range en_dash _).
  - destruct (first_range en_dash _); [discriminate|].
    now apply first_range_found.
Qed.

Lemma contains_range_not_blank (block : jsstring) :
  contains_range block -> is_empty (trim block) = false.
Proof.
  intros (pre & d & a & b & post & _ & _ & _ & ->).
  apply (not_blank 91%N); [|reflexivity].
  apply in_or_app. right. now left.
Qed.

(** A block with a time range gives a record; a block without gives none. *)
Lemma block_result_range (block : jsstring) :
  contains_range block ->
  exists t, block_times block = Some t
            /\ block_result block = Some (block_line block t).
Proof.
  intros H. unfold block_result.
  rewrite (contains_range_not_blank _ H).
  pose proof (contains_range_times _ H).
  destruct (block_times block) as [t|]; [|contradiction].
  now exists t.
Qed.

Lemma block_result_no_range (block : jsstring) :
  ~ contains_range block -> block_result block = None.
Proof.
  intros H. unfold block_result.
  destruct (is_empty (trim block)); [reflexivity|].
  destruct (block_times block) as [[a b]|] eqn:E; [|reflexivity].
  now apply block_times_inv in E.
Qed.

Lemma block_result_times (block : jsstring) (l : ScriptLine) :
  block_result block = Some l ->
  exists a b, is_time_text a = true /\ is_time_text b = true
              /\ contains_range block /\ l = block_line block (a, b).
Proof.
  unfold block_result. destruct (is_empty (trim block)); [discriminate|].
  destruct (block_times block) as [[a b]|] eqn:E; [|discriminate].
  intros [= <-]. apply block_times_inv in E as (Ha & Hb & Hr).
  now exists a, b.
Qed.

Lemma split_delimited (b r : jsstring) :
  delimited b -> split delimiter (b ++ delimiter ++ r) = b :: split delimiter r.
Proof. intros H. exact (split_cons 45%N [45%N; 45%N] b r H). Qed.

Lemma split_entries (blocks : list jsstring) :
  Forall delimited blocks ->
  split delimiter (entries_text blocks) = blocks ++ [[]].
Proof.
  induction 1 as [|b blocks Hb _ IH]; [reflexivity|].
  change (entries_text (b :: blocks))
    with ((b ++ delimiter) ++ entries_text blocks).
  rewrite <- app_assoc, split_delimited by exact Hb. now rewrite IH.
Qed.

Lemma in_blocks_lines (l : ScriptLine) (blocks : list jsstring) :
  In l (blocks_lines blocks) ->
  exists b, In b blocks /\ block_result b = Some l.
Proof.
  unfold blocks_lines. rewrite in_flat_map. intros (b & Hb & Hl).
  exists b. split; [assumption|].
  destruct (block_result b) as [l'|]; simpl in Hl; [|contradiction].
  destruct Hl as [->|[]]. reflexivity.
Qed.

End Loop.

(** ** parseScript *)

Section ParseScript.

Lemma blocks_lines_ranges (blocks : list jsstring) :
  Forall contains_range blocks ->
  exists lines, blocks_lines blocks = lines
                /\ Forall2 (fun b l => block_result b = Some l) blocks lines.
Proof.
  induction 1 as [|b blocks Hb _ (lines & Hl & HF)].
  - exists []. split; [reflexivity|constructor].
  - destruct (block_result_range _ Hb) as (t & _ & Hr).
    exists (block_line b t :: lines). split.
    + unfold blocks_lines in *. simpl. now rewrite Hr, Hl.
    + now constructor.
Qed.

(** C2. A text made of N entry blocks, each ended by the delimiter and each
    holding a bracketed time range, decodes into exactly N records: the
    i-th record is the one the i-th block gives, whatever fields the blocks
    carry and whatever their timestamps are. *)
Theorem parseScript_one_line_per_entry (blocks : list jsstring) :
  Forall delimited blocks ->
  Forall contains_range blocks ->
  exists lines,
    parseScript_lines (entries_text blocks) = Normal lines
    /\ length lines = length blocks
    /\ Forall2 (fun b l => parseBlock b = Normal (Some l)) blocks lines.
Proof.
  intros Hd Hr.
  destruct (blocks_lines_ranges _ Hr) as (lines & Hl & HF).
  exists lines. split; [|split].
  - rewrite parseScript_lines_closed, split_entries by assumption.
    rewrite blocks_lines_app, Hl. cbn. now rewrite app_nil_r.
  - symmetry. exact (Forall2_length HF).
  - eapply Forall2_impl; [|exact HF].
    intros b l H. cbn beta in H. now rewrite parseBlock_closed, H.
Qed.

Lemma kumar_en_range : contains_range kumar_en.
Proof.
  exists [], en_dash, (str "0:00"), (str "0:05"), kumar_fields.
  repeat split. now left.
Qed.

Lemma action_block_range : contains_range action_block.
Proof.
  exists nl, c_minus, (str "0:00.5"), (str "0:02"),
    (nl ++ str "Action Description: Camera pans over skyline" ++ nl).
  repeat split. now right.
Qed.

Lemma parseScript_one_line_per_entry_witness :
  exists lines,
    parseScript_lines (entries_text [kumar_en; action_block]) = Normal lines
    /\ length lines = 2
    /\ Forall2 (fun b l => parseBlock b = Normal (Some l))
               [kumar_en; action_block] lines.
Proof.
  apply (parseScript_one_line_per_entry [kumar_en; action_block]).
  - repeat constructor.
  - repeat constructor; [exact kumar_en_range|exact action_block_range].
Defined.

(** C4. [parseScript] completes normally on every text.  When no record
    is recovered it sets the error to a message that is not empty and
    leaves the script as it was; when at least one is recovered it sets the
    script and leaves the error as it was.  The prose of the specification
    gives no record. *)
Theorem parseScript_never_throws :
  (forall text st,
      exists lines st',
        parseScript_lines text = Normal lines
        /\ parseScript text st = Normal st'
        /\ match lines with
           | [] => error st' = Some parse_error_message
                   /\ parse_error_message <> []
           | _ :: _ => error st' = error st /\ script st' = Some lines
           end)
  /\ parseScript_lines prose = Normal []
  /\ parseScript prose {| script := None; error := None |}
     = Normal {| script := None; error := Some parse_error_message |}.
Proof.
  split; [|split; reflexivity].
  intros text st. unfold parseScript.
  rewrite parseScript_lines_closed. cbn [bind].
  destruct (blocks_lines (split delimiter text)) as [|l lines].
  - exists [], (setError (Some parse_error_message) st).
    repeat split. discriminate.
  - exists (l :: lines), (setScript (Some (l :: lines)) st). repeat split.
Qed.

(** C5. Every record has a start and an end time that are not empty.  A
    block between delimiters that holds no bracketed time range gives no
    record, and the records of the blocks before and after it are those
    they give without it. *)
Theorem parseScript_times_and_noise :
  (forall text lines l,
      parseScript_lines text = Normal lines -> In l lines ->
      startTime l <> [] /\ endTime l <> [])
  /\ (forall text before block after,
         split delimiter text = before ++ block :: after ->
         ~ contains_range block ->
         parseBlock block = Normal None
         /\ exists l1 l2,
             parseBlocks before [] = Normal l1
             /\ parseBlocks after [] = Normal l2
             /\ parseScript_lines text = Normal (l1 ++ l2)).
Proof.
  split.
  - intros text lines l H Hin. rewrite parseScript_lines_closed in H.
    injection H as <-.
    apply in_blocks_lines in Hin as (b & _ & Hb).
    apply block_result_times in Hb as (a & e & Ha & He & _ & ->).
    cbn [block_line startTime endTime fst snd].
    rewrite !trim_time_text by assumption.
    apply is_time_text_inv in Ha as [Ha _], He as [He _]. now split.
  - intros text before block after Hs Hn.
    pose proof (block_result_no_range _ Hn) as Hb. split.
    + now rewrite parseBlock_closed, Hb.
    + exists (blocks_lines before), (blocks_lines after).
      rewrite !parseBlocks_closed, parseScript_lines_closed, Hs.
      repeat split.
      change (block :: after) with ([block] ++ after).
      rewrite !blocks_lines_app. unfold blocks_lines at 2.
      cbn [flat_map]. now rewrite Hb.
Qed.

Lemma prose_no_range : ~ contains_range prose.
Proof. intros H. now apply contains_range_times in H. Qed.

Lemma parseScript_times_and_noise_witness :
  (startTime kumar_line <> [] /\ endTime kumar_line <> [])
  /\ (parseBlock prose = Normal None
      /\ exists l1 l2,
          parseBlocks [kumar_en] [] = Normal l1
          /\ parseBlocks [action_block; []] [] = Normal l2
          /\ parseScript_lines
               (kumar_en ++ delimiter ++ prose ++ delimiter
                         ++ action_block ++ delimiter)
             = Normal (l1 ++ l2)).
Proof.
  split.
  - apply (proj1 parseScript_times_and_noise
                 (entries_text [kumar_en]) [kumar_line] kumar_line).
    + reflexivity.
    + now left.
  - apply (proj2 parseScript_times_and_noise
                 (kumar_en ++ delimiter ++ prose ++ delimiter
                           ++ action_block ++ delimiter)
                 [kumar_en] prose [action_block; []]).
    + reflexivity.
    + exact prose_no_range.
Defined.

Lemma field_value_absent (label dflt block : jsstring) :
  after_first_label label block = None -> field_value label dflt block = dflt.
Proof. unfold field_value. now intros ->. Qed.

(** C6, as stated, fails: a block with a time range and a line that is
    none of the labeled fields, where no label stands at the start of a
    line, still has a field that is not its default, because the letter
    and colon of a label are read at the end of a longer word. *)
Lemma unlabeled_block_counterexample :
  contains_range notes_block
  /\ (forall label, In label all_labels ->
                    line_leading label notes_block = false)
  /\ exists l, parseBlock notes_block = Normal (Some l)
               /\ spoken (versions l) = str "hi"
               /\ dialogue l = str "hi".
Proof.
  split; [|split].
  - exists [], en_dash, (str "0:00"), (str "0:05"), (nl ++ str "Notes: hi").
    repeat split. now left.
  - unfold all_labels. simpl.
    intros label [<-|[<-|[<-|[<-|[<-|[<-|[<-|[]]]]]]]]; reflexivity.
  - eexists. split; [vm_compute; reflexivity|split; reflexivity].
Qed.

(** C6, amended. A block that holds a time range and in which none of
    the seven labels, in either letter case, is immediately followed by a
    colon anywhere, not even at the end of a longer word, still gives one
    record: its times are not empty and every other field has its
    default. *)
Theorem block_without_fields_defaults (block : jsstring) :
  contains_range block ->
  (forall label, In label all_labels -> after_first_label label block = None) ->
  exists l,
    parseBlock block = Normal (Some l)
    /\ parseBlocks [block] [] = Normal [l]
    /\ startTime l <> [] /\ endTime l <> []
    /\ person l = str "Unknown"
    /\ emotion l = Some (str "Neutral")
    /\ originalMeaning l = Some []
    /\ actionDescription l = Some []
    /\ dialogue l = []
    /\ versions l = {| spoken := []; tanglish := []; syncShort := [] |}.
Proof.
  intros Hr Hl.
  destruct (block_result_range _ Hr) as ([a b] & Ht & Hb).
  apply block_times_inv in Ht as (Ha & He & _).
  exists (block_line block (a, b)).
  split; [now rewrite parseBlock_closed, Hb|].
  split; [rewrite parseBlocks_closed; unfold blocks_lines; cbn [flat_map];
          now rewrite Hb|].
  unfold block_line. cbn [startTime endTime person emotion originalMeaning
    actionDescription dialogue versions fst snd].
  rewrite !trim_time_text by assumption.
  rewrite !field_value_absent by (apply Hl; unfold all_labels; simpl; tauto).
  apply is_time_text_inv in Ha as [Ha _], He as [He _].
  repeat split; assumption.
Qed.

Lemma en_range_is_range : contains_range en_range.
Proof.
  exists [], en_dash, (str "0:00"), (str "0:05"), [].
  repeat split. now left.
Qed.

Lemma en_range_no_label (label : jsstring) :
  In label all_labels -> after_first_label label en_range = None.
Proof.
  unfold all_labels. simpl.
  intros [<-|[<-|[<-|[<-|[<-|[<-|[<-|[]]]]]]]]; reflexivity.
Qed.

Lemma block_without_fields_defaults_witness :
  exists l,
    parseBlock en_range = Normal (Some l)
    /\ parseBlocks [en_range] [] = Normal [l]
    /\ startTime l <> [] /\ endTime l <> []
    /\ person l = str "Unknown"
    /\ emotion l = Some (str "Neutral")
    /\ originalMeaning l = Some []
    /\ actionDescription l = Some []
    /\ dialogue l = []
    /\ versions l = {| spoken := []; tanglish := []; syncShort := [] |}.
Proof.
  apply (block_without_fields_defaults en_range).
  - exact en_range_is_range.
  - exact en_range_no_label.
Defined.

(** C9, as stated, fails: a decode that recovers nothing leaves the
    script that was stored before. *)
Lemma parseScript_replaces_counterexample :
  ~ (forall text st lines st',
        parseScript_lines text = Normal lines ->
        parseScript text st = Normal st' ->
        script st' = Some lines).
Proof.
  intros H.
  specialize (H prose a_state []
                {| script := Some [kumar_line];
                   error := Some parse_error_message |} eq_refl eq_refl).
  discriminate.
Qed.

(** C9, amended. A decode that recovers at least one record replaces the
    stored script by exactly the records recovered; a decode that recovers
    none leaves the stored script as it was. *)
Theorem parseScript_script_state (text : jsstring) (st : AppState) :
  exists lines st',
    parseScript_lines text = Normal lines
    /\ parseScript text st = Normal st'
    /\ script st' = match lines with
                    | [] => script st
                    | _ :: _ => Some lines
                    end.
Proof.
  unfold parseScript. rewrite parseScript_lines_closed. cbn [bind].
  destruct (blocks_lines (split delimiter text)) as [|l lines].
  - exists [], (setError (Some parse_error_message) st). repeat split.
  - exists (l :: lines), (setScript (Some (l :: lines)) st). repeat split.
Qed.

End ParseScript.

(** ** The single-letter fields *)

Section SingleLetter.

Lemma chr_matches_colon (c : code_unit) :
  chr_matches true colon c = true -> c = colon.
Proof.
  unfold chr_matches, cu_eqb, colon.
  change (canonicalize true 58%N) with 58%N.
  unfold canonicalize, ascii_upper.
  destruct (c <? 128)%N; [|now intros H%N.eqb_eq].
  destruct ((97 <=? c) && (c <=? 122))%N eqn:E; intros H%N.eqb_eq; [|auto].
  apply andb_true_iff in E as [E1%N.leb_le E2%N.leb_le]. lia.
Qed.

Lemma single_letter_not_colon (L c : code_unit) :
  In L [83%N; 84%N; 76%N] ->
  chr_matches true L c = true -> chr_matches true colon c = false.
Proof.
  intros HL Hc. destruct (chr_matches true colon c) eqn:E; [|reflexivity].
  apply chr_matches_colon in E. subst c.
  simpl in HL. destruct HL as [<-|[<-|[<-|[]]]]; discriminate.
Qed.

(** Whatever stands before it, the first letter-and-colon of the block is
    where a single-letter field is read. *)
Lemma after_first_single (L c : code_unit) (rest : jsstring) :
  chr_matches true L c = true -> chr_matches true colon c = false ->
  forall pre, after_first_label [L] pre = None ->
              after_first_label [L] (pre ++ c :: colon :: rest) = Some rest.
Proof.
  intros HL Hc. induction pre as [|x pre IH]; intros Hpre.
  - simpl. now rewrite HL.
  - rewrite after_first_label_unfold in Hpre.
    change ((x :: pre) ++ c :: colon :: rest)
      with (x :: pre ++ c :: colon :: rest).
    rewrite after_first_label_unfold.
    cbn [app strip] in *.
    destruct (chr_matches true L x).
    + destruct pre as [|y pre].
      * cbn [app]. rewrite Hc. apply IH. reflexivity.
      * cbn [app] in *. destruct (chr_matches true colon y); [discriminate|].
        now apply IH.
    + now apply IH.
Qed.

Lemma rest_of_line_next (gap v tail : jsstring) :
  forallb is_white_space gap = true ->
  forallb dot v = true ->
  match v with [] => False | c :: _ => is_white_space c = false end ->
  match tail with [] => True | c :: _ => is_line_terminator c = true end ->
  rest_of_line (gap ++ v ++ tail) = v.
Proof.
  intros Hg Hv Hh Ht. unfold rest_of_line.
  destruct v as [|c v]; [contradiction|].
  destruct (take_while_all is_white_space gap ((c :: v) ++ tail) Hg Hh)
    as [_ ->].
  apply (take_while_all dot (c :: v) tail Hv).
  destruct tail as [|x tail]; [exact I|].
  unfold dot. now rewrite Ht.
Qed.

(** C3, as stated, fails: [S] is read from the inside of a longer word,
    and from the inside of the value of another field. *)
Lemma single_letter_anchored_counterexample :
  (line_leading (str "S") notes_block = false
   /\ exists l, parseBlock notes_block = Normal (Some l)
                /\ spoken (versions l) = str "hi")
  /\ (line_leading (str "S") value_block = false
      /\ exists l, parseBlock value_block = Normal (Some l)
                   /\ person l = str "Watts: hello"
                   /\ spoken (versions l) = str "hello").
Proof.
  split; (split; [reflexivity|]).
  - eexists. split; [vm_compute; reflexivity|reflexivity].
  - eexists. split; [vm_compute; reflexivity|split; reflexivity].
Qed.

(** C3, amended. Each of the fields S, T and L of a record is read at the
    first place of the block where its letter, in either case, is
    immediately followed by a colon, wherever that place is.  The value
    starts at the first unit after that colon that is not white space,
    line breaks being white space, and runs to the next line terminator
    or the end of the block; it is then trimmed.  So it is the rest of
    the line of the colon when that holds more than white space, and the
    next line that is not blank when it does not.  The field is empty
    when there is no such place. *)
Theorem single_letter_fields_first_occurrence :
  (forall (block : jsstring) (line : ScriptLine),
      parseBlock block = Normal (Some line) ->
      spoken (versions line) = field_value (str "S") [] block
      /\ tanglish (versions line) = field_value (str "T") [] block
      /\ syncShort (versions line) = field_value (str "L") [] block)
  /\ (forall (L : code_unit) (pre : jsstring) (c : code_unit)
             (rest dflt : jsstring),
         In L [83%N; 84%N; 76%N] ->
         chr_matches true L c = true ->
         after_first_label [L] pre = None ->
         field_value [L] dflt (pre ++ c :: colon :: rest)
         = trim (rest_of_line rest))
  /\ (forall (gap v tail : jsstring),
         forallb is_white_space gap = true ->
         forallb dot v = true ->
         match v with [] => False | c :: _ => is_white_space c = false end ->
         match tail with
         | [] => True
         | c :: _ => is_line_terminator c = true
         end ->
         rest_of_line (gap ++ v ++ tail) = v).
Proof.
  split; [|split].
  - intros block line H. rewrite parseBlock_closed in H.
    injection H as H. apply block_result_times in H as (a & b & _ & _ & _ & ->).
    repeat split.
  - intros L pre c rest dflt HL Hc Hpre. unfold field_value.
    rewrite (after_first_single L c rest Hc
               (single_letter_not_colon L c HL Hc) pre Hpre).
    reflexivity.
  - intros gap v tail. apply rest_of_line_next.
Qed.

Lemma single_letter_fields_first_occurrence_witness :
  (spoken (versions kumar_line) = field_value (str "S") [] kumar_en
   /\ tanglish (versions kumar_line) = field_value (str "T") [] kumar_en
   /\ syncShort (versions kumar_line) = field_value (str "L") [] kumar_en)
  /\ field_value (str "S") [] (str "Note" ++ 115%N :: colon :: str " hi")
     = trim (rest_of_line (str " hi"))
  /\ rest_of_line (nl ++ str "T: vanakkam" ++ nl ++ str "L: vna")
     = str "T: vanakkam".
Proof.
  split; [|split].
  - apply (proj1 single_letter_fields_first_occurrence kumar_en kumar_line).
    reflexivity.
  - apply (proj1 (proj2 single_letter_fields_first_occurrence)
                 83%N (str "Note") 115%N (str " hi") []).
    + now left.
    + reflexivity.
    + reflexivity.
  - apply (proj2 (proj2 single_letter_fields_first_occurrence)
                 nl (str "T: vanakkam") (nl ++ str "L: vna"));
      reflexivity.
Defined.

End SingleLetter.

(** ** The two dashes *)

Section Dashes.

Lemma contains_range_cons (x : code_unit) (s : jsstring) :
  contains_range s -> contains_range (x :: s).
Proof.
  intros (pre & d & a & b & post & Hd & Ha & Hb & ->).
  now exists (x :: pre), d, a, b, post.
Qed.

Lemma time_here_range (d : code_unit) (s : jsstring) :
  is_dash d -> time_here d s <> None -> contains_range s.
Proof.
  intros Hd H. destruct (time_here d s) as [[[a b] rest]|] eqn:E;
    [|contradiction].
  apply time_here_sound in E as (Ha & Hb & ->).
  now exists [], d, a, b, rest.
Qed.

Lemma first_range_range (d : code_unit) (s : jsstring) :
  is_dash d -> first_range d s <> None -> contains_range s.
Proof.
  intros Hd H. destruct (first_range d s) as [[a b]|] eqn:E; [|contradiction].
  apply first_range_inv in E as (Ha & Hb & pre & post & ->).
  now exists pre, d, a, b, post.
Qed.

Lemma time_text_no_bracket (a : jsstring) :
  forallb time_class a = true -> ~ In 91%N a.
Proof.
  intros Ha Hin. rewrite forallb_forall in Ha.
  apply Ha, time_class_range in Hin. lia.
Qed.

(** The opening bracket occurs once in the text of a range, as its first
    unit. *)
Lemma range_one_bracket (d : code_unit) (a b : jsstring) :
  is_dash d -> is_time_text a = true -> is_time_text b = true ->
  exists inner, range d a b = 91%N :: inner /\ ~ In 91%N inner.
Proof.
  intros Hd Ha Hb. apply is_time_text_inv in Ha as [_ Ha], Hb as [_ Hb].
  exists (a ++ [32%N; d; 32%N] ++ b ++ str "]"). split; [reflexivity|].
  rewrite !in_app_iff. intros [H|[H|[H|H]]].
  - now apply (time_text_no_bracket a).
  - simpl in H. destruct Hd as [-> | ->];
      destruct H as [H|[H|[H|[]]]]; discriminate.
  - now apply (time_text_no_bracket b).
  - simpl in H. destruct H as [H|[]]. discriminate.
Qed.

(** A range read at the head of a text that runs into an opening bracket
    ends before that bracket. *)
Lemma time_here_before_bracket (d : code_unit) (y t : jsstring) :
  is_dash d -> y <> [] ->
  time_here d (y ++ 91%N :: t) <> None -> time_here d y <> None.
Proof.
  intros Hd Hy H.
  destruct (time_here d (y ++ 91%N :: t)) as [[[a b] rest]|] eqn:E;
    [clear H|contradiction].
  apply time_here_sound in E as (Ha & Hb & E).
  destruct (range_one_bracket d a b Hd Ha Hb) as (inner & Hr & Hin).
  apply app_eq_app in E as [l [[Hy' Hrest]|[Hrange Ht]]].
  - subst y. now rewrite time_here_complete.
  - destruct l as [|x l].
    + rewrite app_nil_r in Hrange. subst y.
      rewrite <- (app_nil_r (range d a b)). now rewrite time_here_complete.
    + injection Ht as <- _. rewrite Hr in Hrange.
      destruct y as [|y0 y]; [contradiction|].
      injection Hrange as _ ->. exfalso. apply Hin.
      apply in_or_app. right. now left.
Qed.

Lemma first_range_skip_before (d : code_unit) (t : jsstring) :
  is_dash d ->
  forall pre, ~ contains_range pre ->
              first_range d (pre ++ 91%N :: t) = first_range d (91%N :: t).
Proof.
  intros Hd. induction pre as [|x pre IH]; intros Hn; [reflexivity|].
  change ((x :: pre) ++ 91%N :: t) with (x :: pre ++ 91%N :: t).
  rewrite first_range_unfold.
  destruct (time_here d (x :: pre ++ 91%N :: t)) eqn:E.
  - exfalso. apply Hn. apply (time_here_range d _ Hd).
    apply (time_here_before_bracket d (x :: pre) t Hd); [discriminate|].
    cbn [app]. now rewrite E.
  - apply IH. intros H. apply Hn. now apply contains_range_cons.
Qed.

Lemma time_here_needs_bracket (d c : code_unit) (s : jsstring) :
  c <> 91%N -> time_here d (c :: s) = None.
Proof.
  intros Hc. unfold time_here. cbn [str map list_ascii_of_string strip].
  destruct (chr_matches false (N_of_ascii "[") c) eqn:E; [|reflexivity].
  apply chr_matches_exact in E. now subst.
Qed.

Lemma first_range_skip_inner (d : code_unit) (t : jsstring) :
  forall x, ~ In 91%N x -> first_range d (x ++ t) = first_range d t.
Proof.
  induction x as [|c x IH]; intros Hx; [reflexivity|].
  change ((c :: x) ++ t) with (c :: x ++ t).
  rewrite first_range_unfold, time_here_needs_bracket.
  - apply IH. intros H. apply Hx. now right.
  - intros ->. apply Hx. now left.
Qed.

Lemma first_range_none (d : code_unit) (s : jsstring) :
  is_dash d -> ~ contains_range s -> first_range d s = None.
Proof.
  intros Hd Hn. destruct (first_range d s) eqn:E; [|reflexivity].
  exfalso. apply Hn, (first_range_range d s Hd). now rewrite E.
Qed.

(** The en-dash pattern does not read a range written with a hyphen. *)
Lemma time_here_wrong_dash (a b post : jsstring) :
  is_time_text a = true ->
  time_here en_dash (range c_minus a b ++ post) = None.
Proof.
  intros Ha. apply is_time_text_inv in Ha as [Ha Ha'].
  unfold time_here, range. rewrite <- !app_assoc.
  rewrite (proj2 (strip_exact (str "[") _ _) eq_refl).
  rewrite (plus_run_intro time_class a
             ([32%N; c_minus; 32%N] ++ b ++ str "]" ++ post) Ha Ha' eq_refl).
  reflexivity.
Qed.

(** Where the times of a block with one range come from, for either dash. *)
Lemma block_times_one_range (d : code_unit) (pre a b post : jsstring) :
  is_dash d -> is_time_text a = true -> is_time_text b = true ->
  ~ contains_range pre -> ~ contains_range post ->
  block_times (pre ++ range d a b ++ post) = Some (a, b).
Proof.
  intros Hd Ha Hb Hpre Hpost.
  destruct (range_one_bracket d a b Hd Ha Hb) as (inner & Hr & Hin).
  assert (Hsame : first_range d (pre ++ range d a b ++ post) = Some (a, b)).
  { rewrite Hr. cbn [app]. rewrite first_range_skip_before by assumption.
    change (91%N :: inner ++ post) with ((91%N :: inner) ++ post).
    rewrite <- Hr, first_range_unfold.
    now rewrite time_here_complete. }
  unfold block_times. destruct Hd as [-> | ->]; [now rewrite Hsame|].
  assert (Hen : first_range en_dash (pre ++ range c_minus a b ++ post) = None).
  { rewrite Hr. cbn [app].
    rewrite first_range_skip_before by (assumption || now left).
    rewrite first_range_unfold.
    change (91%N :: inner ++ post) with ((91%N :: inner) ++ post).
    rewrite <- Hr, time_here_wrong_dash by assumption.
    rewrite first_range_skip_inner by assumption.
    apply first_range_none; [now left|assumption]. }
  now rewrite Hen.
Qed.

End Dashes.

(** ** The fields of a block with one range *)

Section Fields.

(** Under the [i] flag a letter of the pattern is matched by a letter. *)
Lemma chr_matches_letter (pc c : code_unit) :
  is_letter pc = true -> chr_matches true pc c = true -> is_letter c = true.
Proof.
  unfold is_letter, chr_matches, canonicalize, ascii_upper, cu_eqb.
  intros Hp Hc. bounds.
Qed.

Lemma range_no_letter (d : code_unit) (a b : jsstring) (c : code_unit) :
  is_dash d -> is_time_text a = true -> is_time_text b = true ->
  In c (range d a b) -> is_letter c = false.
Proof.
  intros Hd Ha Hb. apply is_time_text_inv in Ha as [_ Ha], Hb as [_ Hb].
  rewrite forallb_forall in Ha, Hb.
  unfold range. rewrite !in_app_iff.
  assert (Ht : forall x, time_class x = true -> is_letter x = false).
  { intros x Hx. apply time_class_range in Hx. unfold is_letter. bounds. }
  intros [H|[H|[H|[H|H]]]]; auto.
  - simpl in H. destruct H as [<-|[]]. reflexivity.
  - simpl in H. destruct Hd as [-> | ->];
      destruct H as [<-|[<-|[<-|[]]]]; reflexivity.
  - simpl in H. destruct H as [<-|[]]. reflexivity.
Qed.

Lemma after_first_label_skip (l0 : code_unit) (l t : jsstring) :
  forall x, (forall c, In c x -> chr_matches true l0 c = false) ->
            after_first_label (l0 :: l) (x ++ t) = after_first_label (l0 :: l) t.
Proof.
  induction x as [|c x IH]; intros Hx; [reflexivity|].
  change ((c :: x) ++ t) with (c :: x ++ t).
  rewrite after_first_label_unfold. cbn [app strip].
  rewrite (Hx c) by now left.
  apply IH. intros c' Hc'. apply Hx. now right.
Qed.

(** A label and its colon that are not read in a text are not read either
    when the text goes on with an opening bracket. *)
Lemma strip_before_bracket (t : jsstring) :
  forall pat y,
    forallb (fun pc => negb (chr_matches true pc 91%N)) pat = true ->
    strip true pat y = None ->
    strip true pat (y ++ 91%N :: t) = None.
Proof.
  induction pat as [|pc pat IH]; intros y Hpat Hy; [discriminate|].
  cbn [forallb] in Hpat. apply andb_true_iff in Hpat as [Hpc Hpat].
  apply negb_true_iff in Hpc.
  destruct y as [|c y]; cbn [app strip] in *.
  - now rewrite Hpc.
  - destruct (chr_matches true pc c); [now apply IH|reflexivity].
Qed.

Lemma after_first_label_skip_before (label t : jsstring) :
  forallb (fun pc => negb (chr_matches true pc 91%N)) label = true ->
  forall pre, after_first_label label pre = None ->
              after_first_label label (pre ++ 91%N :: t)
              = after_first_label label (91%N :: t).
Proof.
  intros Hl.
  assert (Hpat : forallb (fun pc => negb (chr_matches true pc 91%N))
                         (label ++ [colon]) = true)
    by (rewrite forallb_app, Hl; reflexivity).
  induction pre as [|x pre IH]; intros Hc; [reflexivity|].
  rewrite after_first_label_unfold in Hc.
  destruct (strip true (label ++ [colon]) (x :: pre)) eqn:E; [discriminate|].
  rewrite after_first_label_unfold.
  rewrite (strip_before_bracket t _ _ Hpat E).
  cbn [app]. now apply IH.
Qed.

Lemma field_value_one_range (label dflt : jsstring) (d : code_unit)
      (pre a b post : jsstring) :
  is_label label = true ->
  is_dash d -> is_time_text a = true -> is_time_text b = true ->
  after_first_label label pre = None ->
  field_value label dflt (pre ++ range d a b ++ post)
  = field_value label dflt post.
Proof.
  intros Hl Hd Ha Hb Hc. unfold field_value.
  unfold is_label in Hl. apply andb_true_iff in Hl as [Hl0 Hl].
  destruct label as [|l0 l]; [discriminate|].
  destruct (range_one_bracket d a b Hd Ha Hb) as (inner & Hr & _).
  rewrite Hr. cbn [app].
  rewrite after_first_label_skip_before by assumption.
  change (91%N :: inner ++ post) with ((91%N :: inner) ++ post).
  rewrite <- Hr. rewrite after_first_label_skip; [reflexivity|].
  intros c Hin. destruct (chr_matches true l0 c) eqn:E; [|reflexivity].
  apply (chr_matches_letter l0 c Hl0) in E.
  now rewrite (range_no_letter d a b c Hd Ha Hb Hin) in E.
Qed.

Lemma block_line_one_range (d : code_unit) (pre a b post : jsstring)
      (t : jsstring * jsstring) :
  is_dash d -> is_time_text a = true -> is_time_text b = true ->
  (forall label, In label all_labels -> after_first_label label pre = None) ->
  block_line (pre ++ range d a b ++ post) t = block_line post t.
Proof.
  intros Hd Ha Hb Hc. unfold block_line.
  now rewrite !(fun label dflt Hl Hp =>
                  field_value_one_range label dflt d pre a b post
                                        Hl Hd Ha Hb Hp)
    by (reflexivity || (apply Hc; unfold all_labels; simpl; tauto)).
Qed.

Lemma range_not_blank (d : code_unit) (pre a b post : jsstring) :
  is_empty (trim (pre ++ range d a b ++ post)) = false.
Proof.
  apply (not_blank 91%N); [|reflexivity].
  apply in_or_app. right. now left.
Qed.

Lemma block_result_one_range (d : code_unit) (pre a b post : jsstring) :
  is_dash d -> is_time_text a = true -> is_time_text b = true ->
  (forall label, In label all_labels -> after_first_label label pre = None) ->
  ~ contains_range pre -> ~ contains_range post ->
  block_result (pre ++ range d a b ++ post) = Some (block_line post (a, b)).
Proof.
  intros Hd Ha Hb Hc Hpre Hpost. unfold block_result.
  rewrite range_not_blank, block_times_one_range by assumption.
  cbn [option_map]. now rewrite block_line_one_range.
Qed.

(** C7, as stated, fails: when the range stands on the line of a field,
    the value of that field keeps the dash it was written with. *)
Lemma range_inside_field_counterexample :
  exists l_en l_hy,
    parseBlock same_line_en = Normal (Some l_en)
    /\ parseBlock same_line_hy = Normal (Some l_hy)
    /\ person l_en = str "Kumar [0:00 " ++ [en_dash] ++ str " 0:05]"
    /\ person l_hy = str "Kumar [0:00 - 0:05]"
    /\ l_hy <> l_en.
Proof.
  eexists. eexists.
  split; [vm_compute; reflexivity|].
  split; [vm_compute; reflexivity|].
  split; [reflexivity|]. split; [reflexivity|].
  intros H. apply (f_equal person) in H. discriminate.
Qed.

(** C7, amended. The en-dash pattern is tried first and the hyphen pattern
    only when it finds nothing: the times of the record are the groups of
    whichever of the two answered.  A block whose only time range has no
    label followed by a colon anywhere before it decodes to the same
    record whether that range is written with a hyphen or with an en
    dash. *)
Theorem hyphen_same_as_en_dash :
  (forall (block : jsstring) (tm : list jsstring),
      String_match block re_time_en = Some tm
      \/ (String_match block re_time_en = None
          /\ String_match block re_time_hy = Some tm) ->
      exists l, parseBlock block = Normal (Some l)
                /\ tm = [nth 0 tm []; startTime l; endTime l])
  /\ (forall (pre a b post : jsstring),
         is_time_text a = true -> is_time_text b = true ->
         (forall label, In label all_labels ->
                        after_first_label label pre = None) ->
         ~ contains_range pre -> ~ contains_range post ->
         parseBlock (pre ++ range c_minus a b ++ post)
         = parseBlock (pre ++ range en_dash a b ++ post)
         /\ exists l, parseBlock (pre ++ range c_minus a b ++ post)
                      = Normal (Some l)
                      /\ startTime l = a /\ endTime l = b).
Proof.
  split.
  - intros block tm H.
    assert (Ht : exists w a b, tm = [w; a; b] /\ block_times block = Some (a, b)).
    { unfold block_times. destruct H as [H|[Hn H]].
      - pose proof (exec_time en_dash block) as E.
        unfold re_time_en in H. rewrite H in E.
        destruct E as (w & a & b & -> & ->). now exists w, a, b.
      - pose proof (exec_time en_dash block) as En.
        pose proof (exec_time c_minus block) as E.
        unfold re_time_en in Hn. unfold re_time_hy in H.
        rewrite Hn in En. rewrite H in E. rewrite En.
        destruct E as (w & a & b & -> & ->). now exists w, a, b. }
    destruct Ht as (w & a & b & -> & Ht).
    pose proof (block_times_inv _ _ _ Ht) as (Ha & Hb & Hr).
    exists (block_line block (a, b)). split.
    + rewrite parseBlock_closed. unfold block_result.
      now rewrite (contains_range_not_blank _ Hr), Ht.
    + cbn [block_line startTime endTime fst snd nth].
      now rewrite !trim_time_text.
  - intros pre a b post Ha Hb Hc Hpre Hpost.
    rewrite !parseBlock_closed.
    rewrite !block_result_one_range by (assumption || (now left) || (now right)).
    split; [reflexivity|].
    exists (block_line post (a, b)). split; [reflexivity|].
    cbn [block_line startTime endTime fst snd].
    now rewrite !trim_time_text.
Qed.

Lemma intro_line_no_label (label : jsstring) :
  In label all_labels -> after_first_label label intro_line = None.
Proof.
  unfold all_labels. simpl.
  intros [<-|[<-|[<-|[<-|[<-|[<-|[<-|[]]]]]]]]; reflexivity.
Qed.

Lemma hyphen_same_as_en_dash_witness :
  (exists l, parseBlock kumar_en = Normal (Some l)
             /\ [en_range; str "0:00"; str "0:05"]
                = [nth 0 [en_range; str "0:00"; str "0:05"] [];
                   startTime l; endTime l])
  /\ (parseBlock (intro_line ++ range c_minus (str "0:00") (str "0:05")
                             ++ kumar_fields)
      = parseBlock (intro_line ++ range en_dash (str "0:00") (str "0:05")
                               ++ kumar_fields)
      /\ exists l, parseBlock (intro_line
                                 ++ range c_minus (str "0:00") (str "0:05")
                                 ++ kumar_fields)
                   = Normal (Some l)
                   /\ startTime l = str "0:00" /\ endTime l = str "0:05").
Proof.
  split.
  - apply (proj1 hyphen_same_as_en_dash kumar_en
                 [en_range; str "0:00"; str "0:05"]).
    left. reflexivity.
  - apply (proj2 hyphen_same_as_en_dash
                 intro_line (str "0:00") (str "0:05") kumar_fields).
    + reflexivity.
    + reflexivity.
    + exact intro_line_no_label.
    + intros H. now apply contains_range_times in H.
    + intros H. now apply contains_range_times in H.
Defined.

End Fields.

(** * The rest of the component *)

(** ** More on the records of parseScript *)

Section Records.

(** X1. The start and the end time of every record hold digits, colons
    and dots only, at least one of them. *)
Theorem record_times_are_time_text (text : jsstring)
        (lines : list ScriptLine) (l : ScriptLine) :
  parseScript_lines text = Normal lines -> In l lines ->
  is_time_text (startTime l) = true /\ is_time_text (endTime l) = true.
Proof.
  intros H Hin. rewrite parseScript_lines_closed in H. injection H as <-.
  apply in_blocks_lines in Hin as (b & _ & Hb).
  apply block_result_times in Hb as (a & e & Ha & He & _ & ->).
  cbn [block_line startTime endTime fst snd].
  now rewrite !trim_time_text.
Qed.

Lemma record_times_are_time_text_witness :
  is_time_text (startTime kumar_line) = true
  /\ is_time_text (endTime kumar_line) = true.
Proof.
  apply (record_times_are_time_text (kumar_en ++ delimiter) [kumar_line]).
  - reflexivity.
  - now left.
Defined.

Lemma trimEnd_split (u : jsstring) :
  exists w, u = trimEnd u ++ w /\ forallb is_white_space w = true.
Proof.
  unfold trimEnd, trimStart.
  exists (rev (take_while is_white_space (rev u))). split.
  - rewrite <- rev_app_distr, take_drop_while. symmetry. apply rev_involutive.
  - rewrite forallb_rev. apply forallb_take_while.
Qed.

Lemma trim_incl (s : jsstring) (c : code_unit) : In c (trim s) -> In c s.
Proof.
  unfold trim. intros H.
  destruct (trimEnd_split (trimStart s)) as (w & E & _).
  rewrite <- (take_drop_while is_white_space s).
  apply in_or_app. right. fold (trimStart s). rewrite E.
  apply in_or_app. now left.
Qed.

Lemma trim_trimmed (s : jsstring) : trimmed (trim s).
Proof.
  unfold trimmed, trim. split.
  - destruct (trimEnd_split (trimStart s)) as (w & E & _).
    apply drop_while_id.
    destruct (trimEnd (trimStart s)) as [|c t] eqn:Et; [exact I|].
    pose proof (drop_while_head is_white_space s) as Hh.
    fold (trimStart s) in Hh. rewrite E in Hh. exact Hh.
  - unfold trimEnd. rewrite rev_involutive. unfold trimStart at 1 3.
    apply drop_while_id. apply drop_while_head.
Qed.

Lemma trimmed_trim (s : jsstring) : trimmed s -> trim s = s.
Proof.
  intros [H1 H2]. unfold trim, trimEnd, trimStart.
  rewrite H1, H2. apply rev_involutive.
Qed.

Lemma trim_tidy (s : jsstring) : single_line s -> tidy (trim s).
Proof.
  intros Hs. split.
  - unfold single_line in *. rewrite forallb_forall in *.
    intros c Hc. apply Hs. now apply trim_incl.
  - apply trimmed_trim, trim_trimmed.
Qed.

Lemma rest_of_line_single (s : jsstring) : single_line (rest_of_line s).
Proof. apply forallb_take_while. Qed.

Lemma field_value_tidy (label dflt block : jsstring) :
  tidy dflt -> tidy (field_value label dflt block).
Proof.
  intros Hd. unfold field_value.
  destruct (after_first_label label block); [|exact Hd].
  apply trim_tidy, rest_of_line_single.
Qed.

Lemma literal_tidy :
  tidy (str "Unknown") /\ tidy (str "Neutral") /\ tidy [].
Proof. repeat split. Qed.

(** X2. Every text field of every record is a single line with no white
    space at either end, the three optional texts are always set and the
    score never is, and [dialogue] is [versions.spoken]. *)
Theorem record_fields_are_tidy (text : jsstring)
        (lines : list ScriptLine) (l : ScriptLine) :
  parseScript_lines text = Normal lines -> In l lines ->
  tidy (startTime l) /\ tidy (endTime l) /\ tidy (person l)
  /\ tidy_opt (emotion l) /\ tidy_opt (originalMeaning l)
  /\ tidy_opt (actionDescription l)
  /\ tidy (spoken (versions l)) /\ tidy (tanglish (versions l))
  /\ tidy (syncShort (versions l))
  /\ dialogue l = spoken (versions l)
  /\ confidenceScore l = None.
Proof.
  intros H Hin. rewrite parseScript_lines_closed in H. injection H as <-.
  apply in_blocks_lines in Hin as (b & _ & Hb).
  apply block_result_times in Hb as (a & e & Ha & He & _ & ->).
  destruct literal_tidy as (Hu & Hn & He0).
  assert (Ht : forall t, is_time_text t = true -> tidy (trim t)).
  { intros t Ht. apply trim_tidy. apply is_time_text_inv in Ht as [_ Ht].
    unfold single_line. rewrite forallb_forall in *. intros c Hc.
    apply Ht, time_class_range in Hc. unfold dot, is_line_terminator.
    now rewrite !(proj2 (N.eqb_neq _ _)) by lia. }
  unfold block_line, tidy_opt.
  cbn [startTime endTime person emotion originalMeaning actionDescription
       dialogue versions spoken tanglish syncShort confidenceScore fst snd].
  repeat split; eauto using field_value_tidy;
    try apply (field_value_tidy _ _ _ Hu);
    try apply (field_value_tidy _ _ _ Hn);
    try apply (field_value_tidy _ _ _ He0);
    try apply Ht; assumption.
Qed.


Lemma record_fields_are_tidy_witness :
  tidy (startTime kumar_line) /\ tidy (endTime kumar_line)
  /\ tidy (person kumar_line)
  /\ tidy_opt (emotion kumar_line) /\ tidy_opt (originalMeaning kumar_line)
  /\ tidy_opt (actionDescription kumar_line)
  /\ tidy (spoken (versions kumar_line)) /\ tidy (tanglish (versions kumar_line))
  /\ tidy (syncShort (versions kumar_line))
  /\ dialogue kumar_line = spoken (versions kumar_line)
  /\ confidenceScore kumar_line = None.
Proof.
  apply (record_fields_are_tidy (kumar_en ++ delimiter) [kumar_line]).
  - reflexivity.
  - now left.
Defined.

(** The blocks of a split are made of units of the text. *)
Lemma split_loop_incl (sep : jsstring) (c : code_unit) :
  forall fuel s b, In b (split_loop fuel sep s) -> In c b -> In c s.
Proof.
  induction fuel as [|fuel IH]; intros s b Hb Hc; cbn [split_loop] in Hb.
  - destruct Hb as [<-|[]]. exact Hc.
  - destruct (indexOf sep s) as [j|].
    + destruct Hb as [<-|Hb].
      * rewrite <- (firstn_skipn j s). apply in_or_app. now left.
      * apply IH in Hb; [|exact Hc].
        rewrite <- (firstn_skipn (j + length sep) s).
        apply in_or_app. now right.
    + destruct Hb as [<-|[]]. exact Hc.
Qed.

Lemma split_delimiter_incl (c : code_unit) (text b : jsstring) :
  In b (split delimiter text) -> In c b -> In c text.
Proof. apply split_loop_incl. Qed.

Lemma contains_range_bracket (block : jsstring) :
  contains_range block -> In 91%N block.
Proof.
  intros (pre & d & a & b & post & _ & _ & _ & ->).
  apply in_or_app. right. now left.
Qed.

Lemma not_in_existsb (c : code_unit) (s : jsstring) :
  existsb (N.eqb c) s = false -> ~ In c s.
Proof.
  intros H Hin. assert (E : existsb (N.eqb c) s = true).
  { apply existsb_exists. exists c. split; [exact Hin|apply N.eqb_refl]. }
  congruence.
Qed.

(** X3. A text that holds no opening bracket gives no record: the error
    message is set and the stored script is left as it was. *)
Theorem no_bracket_no_record (text : jsstring) (st : AppState) :
  ~ In 91%N text ->
  parseScript_lines text = Normal []
  /\ parseScript text st
     = Normal {| script := script st; error := Some parse_error_message |}.
Proof.
  intros H.
  assert (E : blocks_lines (split delimiter text) = []).
  { destruct (blocks_lines (split delimiter text)) as [|l ls] eqn:E;
      [reflexivity|exfalso].
    assert (Hin : In l (blocks_lines (split delimiter text)))
      by (rewrite E; now left).
    apply in_blocks_lines in Hin as (b & Hb & Hl).
    apply block_result_times in Hl as (_ & _ & _ & _ & Hr & _).
    apply H. apply (split_delimiter_incl 91%N text b Hb).
    now apply contains_range_bracket. }
  unfold parseScript. rewrite parseScript_lines_closed, E. now split.
Qed.

Lemma no_bracket_no_record_witness :
  parseScript_lines prose = Normal []
  /\ parseScript prose a_state
     = Normal {| script := script a_state;
                 error := Some parse_error_message |}.
Proof.
  apply (no_bracket_no_record prose a_state).
  apply not_in_existsb. reflexivity.
Defined.

Lemma split_no_delimiter (text : jsstring) :
  indexOf delimiter text = None -> split delimiter text = [text].
Proof.
  intros H.
  assert (E : split delimiter text =
              match indexOf delimiter text with
              | None => [text]
              | Some j => firstn j text
                          :: split delimiter (skipn (j + length delimiter) text)
              end) by exact (split_unfold 45%N [45%N; 45%N] text).
  now rewrite H in E.
Qed.

(** X4. A text in which the delimiter never occurs is decoded as one
    block: it gives at most one record, the one of the whole text. *)
Theorem no_delimiter_one_block (text : jsstring) :
  indexOf delimiter text = None ->
  exists lines,
    parseScript_lines text = Normal lines
    /\ length lines <= 1
    /\ parseBlock text
       = Normal (match lines with [] => None | l :: _ => Some l end).
Proof.
  intros H. exists (blocks_lines [text]).
  rewrite parseScript_lines_closed, parseBlock_closed.
  rewrite (split_no_delimiter text H). unfold blocks_lines. cbn [flat_map].
  destruct (block_result text); repeat split; cbn; lia.
Qed.

Lemma no_delimiter_one_block_witness :
  exists lines,
    parseScript_lines (kumar_en ++ action_block) = Normal lines
    /\ length lines <= 1
    /\ parseBlock (kumar_en ++ action_block)
       = Normal (match lines with [] => None | l :: _ => Some l end).
Proof.
  apply (no_delimiter_one_block (kumar_en ++ action_block)). reflexivity.
Defined.

Lemma split_entries_last (last : jsstring) (blocks : list jsstring) :
  Forall delimited blocks -> indexOf delimiter last = None ->
  split delimiter (entries_text blocks ++ last) = blocks ++ [last].
Proof.
  intros Hd Hl. induction Hd as [|b blocks Hb _ IH].
  - cbn [entries_text map concat app]. now apply split_no_delimiter.
  - change (entries_text (b :: blocks))
      with ((b ++ delimiter) ++ entries_text blocks).
    rewrite <- !app_assoc, split_delimited by exact Hb. now rewrite IH.
Qed.

(** X5. The last entry needs no delimiter after it: N entry blocks ended
    by the delimiter and followed by one more block with a time range
    give N + 1 records, in the order of the blocks. *)
Theorem last_entry_needs_no_delimiter (blocks : list jsstring)
        (last : jsstring) :
  Forall delimited blocks -> Forall contains_range blocks ->
  indexOf delimiter last = None -> contains_range last ->
  exists lines l,
    parseScript_lines (entries_text blocks ++ last) = Normal (lines ++ [l])
    /\ Forall2 (fun b r => parseBlock b = Normal (Some r)) blocks lines
    /\ parseBlock last = Normal (Some l).
Proof.
  intros Hd Hr Hl Hlr.
  destruct (blocks_lines_ranges _ Hr) as (lines & El & HF).
  destruct (block_result_range _ Hlr) as (t & _ & Et).
  exists lines, (block_line last t). split; [|split].
  - rewrite parseScript_lines_closed, split_entries_last by assumption.
    rewrite blocks_lines_app, El. unfold blocks_lines. cbn [flat_map].
    now rewrite Et.
  - eapply Forall2_impl; [|exact HF].
    intros b l H. cbn beta in H. now rewrite parseBlock_closed, H.
  - now rewrite parseBlock_closed, Et.
Qed.

Lemma last_entry_needs_no_delimiter_witness :
  exists lines l,
    parseScript_lines (entries_text [kumar_en] ++ action_block)
    = Normal (lines ++ [l])
    /\ Forall2 (fun b r => parseBlock b = Normal (Some r)) [kumar_en] lines
    /\ parseBlock action_block = Normal (Some l).
Proof.
  apply (last_entry_needs_no_delimiter [kumar_en] action_block).
  - repeat constructor.
  - repeat constructor. exact kumar_en_range.
  - reflexivity.
  - exact action_block_range.
Defined.

(** X6. The value of a field starts at the first unit after the colon
    that is not white space, line breaks included: when nothing but white
    space follows the colon on its line, the field takes the next line
    that is not blank, up to its end. *)
Theorem field_skips_line_breaks (label dflt block gap v tail : jsstring) :
  after_first_label label block = Some (gap ++ v ++ tail) ->
  forallb is_white_space gap = true ->
  forallb dot v = true ->
  match v with [] => False | c :: _ => is_white_space c = false end ->
  match tail with [] => True | c :: _ => is_line_terminator c = true end ->
  field_or (String_match block (label_pattern label)) dflt = Normal (trim v).
Proof.
  intros Ha Hg Hv Hh Ht. rewrite field_or_label. unfold field_value.
  now rewrite Ha, rest_of_line_next.
Qed.

Lemma field_skips_line_breaks_witness :
  field_or (String_match (str "T:" ++ nl ++ nl ++ str "L: vna " ++ nl ++ str "x")
                         (label_pattern (str "T"))) []
  = Normal (trim (str "L: vna ")).
Proof.
  apply (field_skips_line_breaks (str "T") []
           (str "T:" ++ nl ++ nl ++ str "L: vna " ++ nl ++ str "x")
           (nl ++ nl) (str "L: vna ") (nl ++ str "x"));
    reflexivity.
Defined.

End Records.

(** ** Rounding keeps the sign *)

Section Rounding.

Lemma shr_1_nonneg (mrs : shr_record) :
  (0 <= shr_m mrs)%Z -> (0 <= shr_m (shr_1 mrs))%Z.
Proof.
  destruct mrs as [m r s]. cbn [shr_m]. intros H.
  destruct m as [|[p|p|]|p]; cbn; lia.
Qed.

Lemma iter_pos_nonneg (p : positive) :
  forall mrs, (0 <= shr_m mrs)%Z -> (0 <= shr_m (iter_pos shr_1 p mrs))%Z.
Proof.
  induction p as [p IH|p IH|]; intros mrs H; cbn [iter_pos].
  - now apply IH, IH, shr_1_nonneg.
  - now apply IH, IH.
  - now apply shr_1_nonneg.
Qed.

Lemma shr_fexp_nonneg (m e : Z) (l : location) :
  (0 <= m)%Z -> (0 <= shr_m (fst (shr_fexp prec emax m e l)))%Z.
Proof.
  intros H. unfold shr_fexp, shr.
  assert (H0 : (0 <= shr_m (shr_record_of_loc m l))%Z)
    by (destruct l as [|[]]; exact H).
  destruct (fexp prec emax (Zdigits2 m + e) - e)%Z; cbn [fst]; auto.
  now apply iter_pos_nonneg.
Qed.

Lemma round_nearest_even_nonneg (m : Z) (l : location) :
  (0 <= m)%Z -> (0 <= round_nearest_even m l)%Z.
Proof.
  intros H. destruct l as [|[]]; cbn [round_nearest_even]; try lia.
  destruct (Z.even m); lia.
Qed.

Lemma binary_round_aux_nonneg (m e : Z) (l : location) :
  (0 <= m)%Z -> is_nonneg (binary_round_aux prec emax false m e l) = true.
Proof.
  intros H. unfold binary_round_aux.
  pose proof (shr_fexp_nonneg m e l H) as H1.
  destruct (shr_fexp prec emax m e l) as [mrs' e']. cbn [fst] in H1.
  pose proof (shr_fexp_nonneg _ e' loc_Exact
                (round_nearest_even_nonneg _ (loc_of_shr_record mrs') H1))
    as H2.
  destruct (shr_fexp prec emax _ e' loc_Exact) as [mrs'' e''].
  cbn [fst] in H2.
  destruct (shr_m mrs'') as [|q|q]; [reflexivity| |lia].
  now destruct (e'' <=? emax - prec)%Z.
Qed.

Lemma nonneg_not_NaN (x : number) : is_nonneg x = true -> isNaN x = false.
Proof. now destruct x. Qed.

Lemma mul_nonneg (x : number) (m : positive) (e : Z) :
  is_nonneg x = true -> is_nonneg (mul x (S754_finite false m e)) = true.
Proof.
  destruct x as [s|s| |s mx ex]; cbn; try discriminate;
    try (now rewrite xorb_false_r).
  rewrite xorb_false_r. intros Hs. apply negb_true_iff in Hs. subst s.
  now apply binary_round_aux_nonneg.
Qed.

Lemma add_nonneg (x y : number) :
  is_nonneg x = true -> is_nonneg y = true -> is_nonneg (add x y) = true.
Proof.
  destruct x as [[]|[]| |[] mx ex]; destruct y as [[]|[]| |[] my ey];
    cbn; try discriminate; try reflexivity.
  intros _ _. unfold binary_normalize, cond_Zopp.
  cbn [Z.add]. unfold binary_round.
  destruct (shl_align _ _ _) as [mz ez].
  now apply binary_round_aux_nonneg.
Qed.

Lemma add_NaN_r (x : number) : add x NaN = NaN.
Proof. now destruct x. Qed.

Lemma of_decimal_nonneg (m : N) (e : Z) :
  is_nonneg (of_decimal false m e) = true.
Proof.
  unfold of_decimal. destruct m as [|p]; [reflexivity|].
  cbn [SFdiv xorb]. unfold SFdiv_core_binary.
  set (d := Z.pos (Z.to_pos (10 ^ Z.max (- e) 0))).
  set (m' := match _ with Z.pos _ => _ | Z0 => _ | Z.neg _ => 0%Z end).
  assert (Hm : (0 <= m')%Z).
  { subst m'. destruct (_ - _ - _)%Z; try lia.
    apply Z.shiftl_nonneg. lia. }
  assert (E : Z.div_eucl m' d = (m' / d, m' mod d)%Z)
    by (unfold Z.div, Z.modulo; now destruct (Z.div_eucl m' d)).
  rewrite E. apply binary_round_aux_nonneg.
  apply Z.div_pos; [exact Hm|subst d; lia].
Qed.

End Rounding.

(** ** The parts of a timestamp *)

Section Parts.

Lemma digit_facts (c : code_unit) :
  is_digit c = true ->
  is_white_space c = false /\ cu_eqb c c_minus = false
  /\ cu_eqb c c_plus = false /\ cu_eqb c c_dot = false
  /\ cu_eqb 73%N c = false.
Proof.
  intros H. unfold is_digit in H.
  apply andb_true_iff in H as [H1%N.leb_le H2%N.leb_le].
  unfold is_white_space, cu_eqb, c_minus, c_plus, c_dot.
  repeat split; bounds;
    now rewrite ?(proj2 (N.eqb_neq _ _)) by lia.
Qed.

Lemma unsigned_digit_head (c : code_unit) (rest : jsstring) :
  is_digit c = true ->
  is_nonneg (unsigned_literal false (c :: rest)) = true.
Proof.
  intros Hc. destruct (digit_facts c Hc) as (_ & _ & _ & _ & HI).
  unfold unsigned_literal.
  change (starts_with (str "Infinity") (c :: rest))
    with (cu_eqb 73%N c && starts_with (str "nfinity") rest).
  rewrite HI. cbn [andb take_while drop_while]. rewrite Hc.
  destruct (drop_while is_digit rest) as [|x s2].
  - apply of_decimal_nonneg.
  - destruct (cu_eqb x c_dot); apply of_decimal_nonneg.
Qed.

Lemma parseFloat_digit_head (c : code_unit) (rest : jsstring) :
  is_digit c = true -> is_nonneg (parseFloat (c :: rest)) = true.
Proof.
  intros Hc. destruct (digit_facts c Hc) as (Hw & Hm & Hp & _ & _).
  unfold parseFloat, trimStart. cbn [drop_while]. rewrite Hw, Hm, Hp.
  now apply unsigned_digit_head.
Qed.

Lemma parseFloat_dot_head (rest : jsstring) :
  parseFloat (c_dot :: rest)
  = match take_while is_digit rest with
    | [] => NaN
    | fp => of_decimal false (digits_val fp)
                       (exponent_part (drop_while is_digit rest)
                        - Z.of_nat (length fp))
    end.
Proof.
  unfold parseFloat, trimStart. cbn [drop_while].
  change (is_white_space c_dot) with false.
  change (cu_eqb c_dot c_minus) with false.
  change (cu_eqb c_dot c_plus) with false. cbn iota.
  unfold unsigned_literal.
  change (starts_with (str "Infinity") (c_dot :: rest)) with false.
  cbn iota. change (is_digit c_dot) with false.
  cbn [take_while drop_while]. change (is_digit c_dot) with false. cbn iota.
  change (cu_eqb c_dot c_dot) with true. cbn iota.
  now destruct (take_while is_digit rest).
Qed.

(** A part made of digits and dots is read as a number that is not
    negative when it is seekable, and as NaN when it is not. *)
Lemma part_dichotomy (p : jsstring) :
  forallb is_digit_or_dot p = true ->
  if seekable_part p then is_nonneg (parseFloat p) = true
  else parseFloat p = NaN.
Proof.
  intros Hp. destruct p as [|c rest]; [reflexivity|].
  cbn [forallb] in Hp. apply andb_true_iff in Hp as [Hc Hrest].
  unfold is_digit_or_dot in Hc. cbn [seekable_part].
  destruct (is_digit c) eqn:Ed; cbn [orb].
  - now apply parseFloat_digit_head.
  - cbn [orb] in Hc. apply cu_eqb_eq in Hc. subst c.
    rewrite cu_eqb_refl. cbn [andb]. rewrite parseFloat_dot_head.
    destruct rest as [|d rest]; [reflexivity|].
    cbn [take_while]. destruct (is_digit d); [|reflexivity].
    apply of_decimal_nonneg.
Qed.

Lemma time_part (time a : jsstring) :
  is_time_text time = true ->
  (forall c, In c a -> In c time) -> count_colons a = 0 ->
  forallb is_digit_or_dot a = true.
Proof.
  intros Ht Hin Hc. apply is_time_text_inv in Ht as [_ Ht].
  rewrite forallb_forall in *. intros c Hca.
  pose proof (Ht c (Hin c Hca)) as Hcl.
  apply count_colons_absent in Hc.
  unfold time_class in Hcl. unfold is_digit_or_dot.
  destruct (is_digit c); [reflexivity|]. cbn [orb] in *.
  destruct (cu_eqb c colon) eqn:E; [|exact Hcl].
  apply cu_eqb_eq in E. subst c. contradiction.
Qed.

End Parts.

(** ** Seeking to the time of a record *)

Section SeekRecord.

Lemma status_result (ok : bool) (x : number) :
  status ok x -> isNaN x = negb ok /\ is_nonneg x = ok.
Proof.
  destruct ok; cbn; intros H.
  - split; [now apply nonneg_not_NaN|exact H].
  - subst x. now split.
Qed.

Lemma status_scaled (ok : bool) (x : number) (z : Z) :
  (exists m e, of_Z z = S754_finite false m e) ->
  status ok x -> status ok (mul x (of_Z z)).
Proof.
  intros (m & e & ->). destruct ok; cbn; intros H.
  - now apply mul_nonneg.
  - now subst x.
Qed.

Lemma status_sum (ok1 ok2 : bool) (x y : number) :
  status ok1 x -> status ok2 y -> status (ok1 && ok2) (add x y).
Proof.
  destruct ok1, ok2; cbn; intros H1 H2.
  - now apply add_nonneg.
  - subst y. apply add_NaN_r.
  - now subst x.
  - now subst x.
Qed.

Lemma sixty_finite : exists m e, of_Z 60 = S754_finite false m e.
Proof. vm_compute. eauto. Qed.

Lemma hour_finite : exists m e, of_Z 3600 = S754_finite false m e.
Proof. vm_compute. eauto. Qed.

(** The seconds of a timestamp made of digits, colons and dots. *)
Lemma seconds_status (time : jsstring) :
  is_time_text time = true ->
  status ((3 <=? count_colons time)
          || forallb seekable_part (split [colon] time))
         (handleSeek_seconds time).
Proof.
  intros Ht.
  assert (Hpart : forall a, (forall c, In c a -> In c time) ->
                            count_colons a = 0 ->
                            status (seekable_part a) (parseFloat a)).
  { intros a Hin Hc. apply part_dichotomy. now apply (time_part time). }
  destruct (count_colons time) as [|[|[|n]]] eqn:Hc.
  - rewrite (parts_of_one _ Hc). unfold handleSeek_seconds.
    rewrite (parts_of_one _ Hc). cbn [map forallb Nat.leb orb].
    rewrite andb_true_r. now apply Hpart.
  - destruct (parts_of_more _ _ Hc) as (m & s & E & Hm & Hs & Hsp).
    unfold handleSeek_seconds. rewrite Hsp, (parts_of_one _ Hs).
    cbn [map forallb Nat.leb orb]. rewrite andb_true_r.
    apply status_sum; [apply status_scaled; [exact sixty_finite|]|];
      apply Hpart; auto; intros c Hin; rewrite E, in_app_iff; cbn; tauto.
  - destruct (parts_of_more _ _ Hc) as (h & r & E & Hh & Hr & Hsp).
    destruct (parts_of_more _ _ Hr) as (m & s & E' & Hm & Hs & Hsp').
    unfold handleSeek_seconds. rewrite Hsp, Hsp', (parts_of_one _ Hs).
    cbn [map forallb Nat.leb orb]. rewrite andb_true_r, andb_assoc.
    apply status_sum;
      [apply status_sum; apply status_scaled;
       [exact hour_finite| |exact sixty_finite|]|];
      apply Hpart; auto; intros c Hin; rewrite E, E', !in_app_iff; cbn;
      rewrite ?in_app_iff; cbn; tauto.
  - rewrite (seconds_of_many_parts time) by (rewrite Hc; lia).
    reflexivity.
Qed.

(** X7. A click on the times of a record reaches the assignment of the
    position exactly when the start time has three colons or more (the
    total is then 0) or each of its parts between colons starts with a
    digit, or with a dot and a digit.  The total is then never NaN and
    never negative: when it is finite it is assigned and [play] is called
    once, when it is plus infinity the assignment throws and nothing
    else happens.  In every other case the click changes nothing and
    throws nothing. *)
Theorem click_on_record_time (text : jsstring) (lines : list ScriptLine)
        (l : ScriptLine) (video : HTMLVideoElement) :
  parseScript_lines text = Normal lines -> In l lines ->
  if (3 <=? count_colons (startTime l))
     || forallb seekable_part (split [colon] (startTime l))
  then exists seconds,
      handleSeek_seconds (startTime l) = seconds
      /\ is_nonneg seconds = true
      /\ ScriptViewer.time_button_click (Some video) l
         = if is_finite seconds then
             Normal (Some {| currentTime := seconds;
                             play_calls := S (play_calls video) |})
           else Throw TypeError
  else ScriptViewer.time_button_click (Some video) l = Normal (Some video).
Proof.
  intros H Hin. rewrite parseScript_lines_closed in H. injection H as <-.
  apply in_blocks_lines in Hin as (b & _ & Hb).
  apply block_result_times in Hb as (a & e & Ha & _ & _ & ->).
  unfold ScriptViewer.time_button_click.
  cbn [block_line startTime fst]. rewrite trim_time_text by assumption.
  pose proof (seconds_status a Ha) as Hs.
  apply status_result in Hs as [Hn Hp].
  rewrite handleSeek_cases, Hn.
  destruct ((3 <=? count_colons a) || forallb seekable_part (split [colon] a));
    cbn [negb]; [|reflexivity].
  now exists (handleSeek_seconds a).
Qed.

Lemma click_on_record_time_witness :
  exists seconds,
    handleSeek_seconds (startTime kumar_line) = seconds
    /\ is_nonneg seconds = true
    /\ ScriptViewer.time_button_click (Some a_video) kumar_line
       = if is_finite seconds then
           Normal (Some {| currentTime := seconds;
                           play_calls := S (play_calls a_video) |})
         else Throw TypeError.
Proof.
  apply (click_on_record_time (kumar_en ++ delimiter) [kumar_line]
                              kumar_line a_video).
  - reflexivity.
  - now left.
Defined.

(** A start time of 310 digits is a record time like any other; its total
    is plus infinity and the click throws. *)
Example click_on_overflowing_time :
  exists l,
    parseScript_lines (range en_dash (repeat 57%N 310) (str "1") ++ delimiter)
    = Normal [l]
    /\ startTime l = repeat 57%N 310
    /\ ScriptViewer.time_button_click (Some a_video) l = Throw TypeError.
Proof. eexists. split; [vm_compute; reflexivity|split; reflexivity]. Qed.

End SeekRecord.

(** ** encode and decode *)

Section Base64Lemmas.

Lemma b64_index_char (i : N) : (i < 64)%N -> b64_index (b64_char i) = Some i.
Proof.
  intros H. unfold b64_char, b64_index.
  repeat match goal with
         | |- context [(?a <? ?b)%N] => destruct (N.ltb_spec a b)
         | |- context [(?a =? ?b)%N] => destruct (N.eqb_spec a b)
         | |- context [(?a <=? ?b)%N] => destruct (N.leb_spec a b)
         end; cbn [andb]; try lia; f_equal; lia.
Qed.

Lemma b64_char_plain (i : N) :
  is_ascii_whitespace (b64_char i) = false
  /\ cu_eqb (b64_char i) equals_sign = false.
Proof.
  unfold b64_char, is_ascii_whitespace, cu_eqb, equals_sign.
  repeat match goal with
         | |- context [(?a <? ?b)%N] => destruct (N.ltb_spec a b)
         | |- context [(i =? ?b)%N] => destruct (N.eqb_spec i b)
         end;
    split; now rewrite ?(proj2 (N.eqb_neq _ _)) by lia.
Qed.

Lemma from_chars_map (v : list N) :
  Forall (fun i => (i < 64)%N) v -> from_chars (map b64_char v) = Some v.
Proof.
  induction 1 as [|i v Hi _ IH]; [reflexivity|].
  cbn [map from_chars]. now rewrite b64_index_char, IH.
Qed.

(** Induction three units at a time. *)
Lemma by_threes (P : list N -> Prop) :
  P [] -> (forall a, P [a]) -> (forall a b, P [a; b]) ->
  (forall a b c rest, P rest -> P (a :: b :: c :: rest)) ->
  forall u, P u.
Proof.
  intros H0 H1 H2 H3.
  assert (H : forall n u, length u <= n -> P u).
  { induction n as [|n IH]; intros u Hu.
    - destruct u; [exact H0|cbn in Hu; lia].
    - destruct u as [|a [|b [|c rest]]]; auto.
      apply H3, IH. cbn in Hu. lia. }
  intros u. now apply (H (length u)).
Qed.

Lemma sextets_small (u : list N) :
  Forall (fun c => (c < 256)%N) u ->
  Forall (fun i => (i < 64)%N) (to_sextets u).
Proof.
  induction u as [| a | a b | a b c rest IH] using by_threes; intros H.
  - constructor.
  - inversion_clear H. cbn [to_sextets].
    repeat constructor; euclid.
  - inversion_clear H as [|? ? Ha H']. inversion_clear H' as [|? ? Hb _].
    cbn [to_sextets]. repeat constructor; euclid.
  - inversion_clear H as [|? ? Ha H']. inversion_clear H' as [|? ? Hb H].
    inversion_clear H as [|? ? Hc H']. cbn [to_sextets].
    apply Forall_app. split; [repeat constructor; euclid|now apply IH].
Qed.

Lemma sextets_round_trip (u : list N) :
  Forall (fun c => (c < 256)%N) u -> from_sextets (to_sextets u) = u.
Proof.
  induction u as [| a | a b | a b c rest IH] using by_threes; intros H.
  - reflexivity.
  - inversion_clear H. cbn [to_sextets from_sextets]. f_equal. euclid.
  - inversion_clear H as [|? ? Ha H']. inversion_clear H' as [|? ? Hb _].
    cbn [to_sextets from_sextets]. repeat f_equal; euclid.
  - inversion_clear H as [|? ? Ha H']. inversion_clear H' as [|? ? Hb H].
    inversion_clear H as [|? ? Hc H'].
    cbn [to_sextets from_sextets app]. rewrite (IH H').
    repeat f_equal; euclid.
Qed.

Lemma sextets_length (u : list N) :
  length (to_sextets u) + length (padding u) = 4 * ((length u + 2) / 3)
  /\ length (to_sextets u) mod 4 <> 1
  /\ (length u = 0 \/ to_sextets u <> []).
Proof.
  unfold padding.
  induction u as [| a | a b | a b c rest IH] using by_threes.
  - cbn. repeat split; auto.
  - cbn. repeat split; auto. right. discriminate.
  - cbn. repeat split; auto. right. discriminate.
  - destruct IH as (IH1 & IH2 & _).
    cbn [to_sextets length app].
    replace (S (S (S (length rest)))) with (length rest + 1 * 3) by lia.
    replace (length rest + 1 * 3 + 2) with (length rest + 2 + 1 * 3) by lia.
    rewrite Nat.Div0.mod_add, Nat.div_add by lia.
    replace (S (S (S (S (length (to_sextets rest))))))
      with (length (to_sextets rest) + 1 * 4) by lia.
    rewrite Nat.Div0.mod_add.
    repeat split; [lia|exact IH2|right; discriminate].
Qed.

Lemma filter_plain (v : list N) (pad : jsstring) :
  forallb (fun c => negb (is_ascii_whitespace c)) pad = true ->
  filter (fun c => negb (is_ascii_whitespace c)) (map b64_char v ++ pad)
  = map b64_char v ++ pad.
Proof.
  intros Hp. apply forallb_filter_id. rewrite forallb_app, Hp, andb_true_r.
  apply forallb_forall. intros c Hc. apply in_map_iff in Hc as (i & <- & _).
  now rewrite (proj1 (b64_char_plain i)).
Qed.

Lemma last_char_plain (v : list N) :
  match rev (map b64_char v) with
  | [] => v = []
  | c :: _ => cu_eqb c equals_sign = false
  end.
Proof.
  rewrite <- map_rev. destruct (rev v) as [|i r] eqn:E.
  - apply (f_equal (@rev _)) in E. now rewrite rev_involutive in E.
  - cbn [map]. apply b64_char_plain.
Qed.

(** The padding that [btoa] puts is the padding that [atob] drops. *)
Lemma strip_padding_btoa (u : list N) :
  strip_padding (map b64_char (to_sextets u) ++ padding u)
  = map b64_char (to_sextets u).
Proof.
  pose proof (sextets_length u) as (Hl & Hm & Hne).
  pose proof (last_char_plain (to_sextets u)) as Hlast.
  unfold strip_padding. rewrite length_app, length_map, Hl.
  replace (4 * ((length u + 2) / 3)) with (((length u + 2) / 3) * 4) by lia.
  rewrite Nat.Div0.mod_mul. cbn [Nat.eqb].
  rewrite rev_app_distr. unfold padding in *.
  destruct (length u mod 3) as [|[|[|k]]] eqn:E; cbn [rev app length] in *.
  - rewrite ?app_nil_r.
    destruct (rev (map b64_char (to_sextets u))) as [|c1 [|c2 r]];
      try reflexivity.
    now rewrite Hlast.
  - change (cu_eqb equals_sign equals_sign) with true. cbn iota.
    apply rev_involutive.
  - destruct (rev (map b64_char (to_sextets u))) as [|c2 r] eqn:Er.
    + subst. destruct Hne as [Hne|Hne]; [|contradiction].
      rewrite Hne in E. discriminate.
    + change (cu_eqb equals_sign equals_sign) with true. cbn iota.
      rewrite Hlast. change (rev r ++ [c2]) with (rev (c2 :: r)).
      rewrite <- Er. apply rev_involutive.
  - rewrite ?app_nil_r.
    destruct (rev (map b64_char (to_sextets u))) as [|c1 [|c2 r]];
      try reflexivity.
    now rewrite Hlast.
Qed.

Lemma atob_btoa (u : list N) :
  Forall (fun c => (c < 256)%N) u ->
  atob (map b64_char (to_sextets u) ++ padding u) = Returns u.
Proof.
  intros H. unfold atob.
  rewrite filter_plain by (unfold padding; now destruct (length u mod 3) as [|[|[|]]]).
  rewrite strip_padding_btoa, length_map.
  pose proof (sextets_length u) as (_ & Hm & _).
  destruct (Nat.eqb_spec (length (to_sextets u) mod 4) 1); [contradiction|].
  rewrite from_chars_map by now apply sextets_small.
  now rewrite sextets_round_trip.
Qed.

Lemma binary_of_bytes (bytes : list Byte.byte) :
  fold_left (fun binary b => binary ++ [Byte.to_N b]) bytes []
  = map Byte.to_N bytes.
Proof.
  assert (H : forall acc,
             fold_left (fun binary b => binary ++ [Byte.to_N b]) bytes acc
             = acc ++ map Byte.to_N bytes).
  { induction bytes as [|b bytes IH]; intros acc; cbn.
    - now rewrite app_nil_r.
    - now rewrite IH, <- app_assoc. }
  apply H.
Qed.

Lemma byte_units (bytes : list Byte.byte) :
  Forall (fun c => (c < 256)%N) (map Byte.to_N bytes).
Proof.
  apply Forall_forall. intros c Hc. apply in_map_iff in Hc as (b & <- & _).
  pose proof (Byte.to_N_bounded b). lia.
Qed.

Lemma to_uint8_byte (b : Byte.byte) : to_uint8 (Byte.to_N b) = b.
Proof.
  unfold to_uint8. pose proof (Byte.to_N_bounded b).
  rewrite N.mod_small by lia. now rewrite Byte.of_to_N.
Qed.

Lemma encode_closed (bytes : list Byte.byte) :
  encode bytes
  = Returns (map b64_char (to_sextets (map Byte.to_N bytes))
             ++ padding (map Byte.to_N bytes)).
Proof.
  unfold encode, btoa. rewrite binary_of_bytes.
  assert (E : existsb (fun c => (255 <? c)%N) (map Byte.to_N bytes) = false).
  { apply not_true_iff_false. intros He.
    apply existsb_exists in He as (c & Hc & Hgt).
    pose proof (byte_units bytes) as Hb. rewrite Forall_forall in Hb.
    apply Hb in Hc. apply N.ltb_lt in Hgt. lia. }
  now rewrite E.
Qed.

Lemma round_trip_pair (bytes : list Byte.byte) :
  exists text, encode bytes = Returns text /\ decode text = Returns bytes.
Proof.
  eexists. split; [apply encode_closed|].
  unfold decode. rewrite atob_btoa by apply byte_units.
  rewrite map_map. f_equal.
  rewrite <- (map_id bytes) at 2. apply map_ext. apply to_uint8_byte.
Qed.

(** X8. [encode] never fails, and [decode] gives back the bytes that
    [encode] was given. *)
Theorem decode_encode (bytes : list Byte.byte) :
  exists text, encode bytes = Returns text /\ decode text = Returns bytes.
Proof. apply round_trip_pair. Qed.

(** X9. The text [encode] gives has four units for every three bytes,
    rounded up; each is a letter, a digit, a plus, a slash or an equals
    sign, and it holds no white space. *)
Theorem encode_shape (bytes : list Byte.byte) :
  exists text,
    encode bytes = Returns text
    /\ length text = 4 * ((length bytes + 2) / 3)
    /\ Forall (fun c => b64_index c <> None \/ c = equals_sign) text
    /\ forallb (fun c => negb (is_ascii_whitespace c)) text = true.
Proof.
  eexists. split; [apply encode_closed|].
  set (u := map Byte.to_N bytes).
  pose proof (sextets_length u) as (Hl & _ & _).
  assert (Hpad : Forall (fun c => c = equals_sign) (padding u))
    by (unfold padding; destruct (length u mod 3) as [|[|[|]]];
        repeat constructor).
  split; [|split].
  - rewrite length_app, length_map, Hl. subst u. now rewrite length_map.
  - apply Forall_app. split.
    + apply Forall_forall. intros c Hc.
      apply in_map_iff in Hc as (i & <- & Hi). left.
      pose proof (sextets_small u (byte_units bytes)) as Hs.
      rewrite Forall_forall in Hs. now rewrite b64_index_char by auto.
    + eapply Forall_impl; [|exact Hpad]. intros c ->. now right.
  - rewrite forallb_app. apply andb_true_iff. split.
    + apply forallb_forall. intros c Hc.
      apply in_map_iff in Hc as (i & <- & _).
      now rewrite (proj1 (b64_char_plain i)).
    + apply forallb_forall. intros c Hc.
      rewrite Forall_forall in Hpad. now rewrite (Hpad c Hc).
Qed.

End Base64Lemmas.

Example encode_known :
  encode [Byte.x4d; Byte.x61; Byte.x6e] = Returns (str "TWFu")
  /\ encode [Byte.x4d; Byte.x61] = Returns (str "TWE=")
  /\ encode [Byte.x4d] = Returns (str "TQ==")
  /\ decode (str " TWE= ") = Returns [Byte.x4d; Byte.x61]
  /\ decode (str "TWE") = Returns [Byte.x4d; Byte.x61]
  /\ decode (str "TWFuT") = InvalidCharacterError
  /\ decode (str "TW=u") = InvalidCharacterError.
Proof. repeat split. Qed.

(** ** The script tab *)

Section Tab.

Lemma b64_char_not_comma (i : N) : b64_char i <> comma.
Proof.
  unfold b64_char, comma.
  repeat match goal with
         | |- context [(?a <? ?b)%N] => destruct (N.ltb_spec a b)
         | |- context [(i =? ?b)%N] => destruct (N.eqb_spec i b)
         end; lia.
Qed.

Lemma encode_no_comma (bytes : list Byte.byte) (text : jsstring) :
  encode bytes = Returns text -> ~ In comma text.
Proof.
  rewrite encode_closed. intros [= <-]. rewrite in_app_iff. intros [H|H].
  - apply in_map_iff in H as (i & Hi & _). now apply b64_char_not_comma in Hi.
  - unfold padding in H.
    destruct (length (map Byte.to_N bytes) mod 3) as [|[|[|]]]; cbn in H;
      intuition discriminate.
Qed.

(** X10. From the data URL of a file, a header that holds no comma, a
    comma and the Base64 text of the content, [fileToBase64] resolves with
    that Base64 text, and [decode] gives back the content from it.  A
    result that holds no comma resolves with [undefined]. *)
Theorem fileToBase64_payload :
  (forall (header : jsstring) (content : list Byte.byte),
      ~ In comma header ->
      exists payload,
        encode content = Returns payload
        /\ fileToBase64_onload (header ++ comma :: payload) = Some payload
        /\ decode payload = Returns content)
  /\ (forall result, ~ In comma result -> fileToBase64_onload result = None).
Proof.
  split.
  - intros header content Hh.
    destruct (round_trip_pair content) as (payload & He & Hd).
    exists payload. repeat split; auto.
    unfold fileToBase64_onload.
    rewrite split_char_cons by exact Hh.
    rewrite split_char_none by now apply (encode_no_comma content).
    reflexivity.
  - intros result H. unfold fileToBase64_onload.
    now rewrite split_char_none.
Qed.

Lemma fileToBase64_payload_witness :
  exists payload,
    encode [Byte.x4d; Byte.x61] = Returns payload
    /\ fileToBase64_onload (str "data:video/mp4;base64" ++ comma :: payload)
       = Some payload
    /\ decode payload = Returns [Byte.x4d; Byte.x61].
Proof.
  apply (proj1 fileToBase64_payload (str "data:video/mp4;base64")
               [Byte.x4d; Byte.x61]).
  apply not_in_existsb. reflexivity.
Defined.

Lemma parseScript_cases (text : jsstring) (st : AppState) :
  parseScript text st
  = Normal (match blocks_lines (split delimiter text) with
            | [] => setError (Some parse_error_message) st
            | _ :: _ => setScript (Some (blocks_lines (split delimiter text))) st
            end).
Proof.
  unfold parseScript. rewrite parseScript_lines_closed. cbn [bind].
  now destruct (blocks_lines (split delimiter text)).
Qed.

Lemma raw_text_or_empty (t : jsstring) : (if is_empty t then [] else t) = t.
Proof. now destruct t. Qed.

Lemma generateTamilScript_state (message_of : js_error -> jsstring)
        (outcome : generation) (st : TabState) :
  match videoFile st with
  | None => generateTamilScript message_of outcome st = st
  | Some _ =>
      let st' := generateTamilScript message_of outcome st in
      processing st' = processing_stopped
      /\ videoFile st' = videoFile st /\ videoUrl st' = videoUrl st
      /\ match outcome with
         | Rejected m =>
             error (appState st') = Some m
             /\ script (appState st') = script (appState st)
         | Responded text =>
             exists lines,
               parseScript_lines (match text with Some t => t | None => [] end)
               = Normal lines
               /\ match lines with
                  | [] => error (appState st') = Some parse_error_message
                          /\ script (appState st') = script (appState st)
                  | _ :: _ => error (appState st') = None
                              /\ script (appState st') = Some lines
                  end
         end
  end.
Proof.
  unfold generateTamilScript. destruct (videoFile st) as [file|] eqn:Ef;
    [|reflexivity].
  destruct outcome as [m|text]; cbn zeta.
  - repeat split; cbn; auto.
  - assert (H : forall raw,
               let st1 := with_app (setError None (appState st))
                                   (setProcessing processing_started st) in
               let st' := match parseScript raw (appState st1) with
                          | Normal a =>
                              setProcessing processing_stopped (with_app a st1)
                          | Throw e =>
                              setProcessing processing_stopped
                                (with_app (setError (Some (message_of e))
                                                    (appState st1)) st1)
                          end in
               processing st' = processing_stopped
               /\ videoFile st' = Some file /\ videoUrl st' = videoUrl st
               /\ exists lines,
                   parseScript_lines raw = Normal lines
                   /\ match lines with
                      | [] => error (appState st') = Some parse_error_message
                              /\ script (appState st') = script (appState st)
                      | _ :: _ => error (appState st') = None
                                  /\ script (appState st') = Some lines
                      end).
    { intros raw. cbn zeta. rewrite parseScript_cases.
      split; [reflexivity|]. split; [exact Ef|]. split; [reflexivity|].
      exists (blocks_lines (split delimiter raw)).
      split; [apply parseScript_lines_closed|].
      destruct (blocks_lines (split delimiter raw)); now split. }
    destruct text as [t|]; [rewrite raw_text_or_empty|]; apply H.
Qed.

(** X11. Without a video file [generateTamilScript] does nothing.  With
    one, it always ends with processing switched off and the file and its
    URL untouched; a rejection sets its message as the error and keeps
    the script; a response whose text gives records stores them with no
    error; a response that gives none, or has no text, sets the parse
    error and keeps the script. *)
Theorem generateTamilScript_outcome (message_of : js_error -> jsstring)
        (outcome : generation) (st : TabState) :
  match videoFile st with
  | None => generateTamilScript message_of outcome st = st
  | Some _ =>
      let st' := generateTamilScript message_of outcome st in
      processing st' = processing_stopped
      /\ videoFile st' = videoFile st /\ videoUrl st' = videoUrl st
      /\ match outcome with
         | Rejected m =>
             error (appState st') = Some m
             /\ script (appState st') = script (appState st)
         | Responded text =>
             exists lines,
               parseScript_lines (match text with Some t => t | None => [] end)
               = Normal lines
               /\ match lines with
                  | [] => error (appState st') = Some parse_error_message
                          /\ script (appState st') = script (appState st)
                  | _ :: _ => error (appState st') = None
                              /\ script (appState st') = Some lines
                  end
         end
  end.
Proof. apply generateTamilScript_state. Qed.

Lemma on_file_invariant (selected : option File) (url : jsstring)
      (st : TabState) :
  tab_invariant st -> tab_invariant (on_file selected url st).
Proof.
  intros H. destruct selected as [file|]; [|exact H].
  destruct H as (_ & _ & _ & H). unfold tab_invariant. cbn.
  repeat split; try discriminate; try contradiction; auto.
Qed.

Lemma generate_invariant (message_of : js_error -> jsstring)
      (outcome : generation) (st : TabState) :
  tab_invariant st -> tab_invariant (generateTamilScript message_of outcome st).
Proof.
  intros Hinv. pose proof Hinv as (H1 & H2 & H3 & H4).
  pose proof (generateTamilScript_state message_of outcome st) as G.
  destruct (videoFile st) as [file|] eqn:Ef; [|now rewrite G].
  cbn zeta in G. destruct G as (Gp & Gf & Gu & G).
  unfold tab_invariant. rewrite Gp, Gf, Gu. repeat split; auto.
  - destruct outcome as [m|text].
    + destruct G as [_ ->]. exact H1.
    + destruct G as (lines & _ & G). destruct lines as [|l lines].
      * destruct G as [_ ->]. exact H1.
      * destruct G as [_ ->]. discriminate.
  - discriminate.
  - discriminate.
  - intros Hu. apply H3 in Hu. discriminate.
Qed.

(** X12. Whatever files are dropped or chosen and however generations
    end, the stored script is never an empty sequence, a script is only
    stored while a video file is selected, the file and its URL are
    there together, and processing is off once an event is handled. *)
Theorem tab_invariants (message_of : js_error -> jsstring)
        (events : list event) :
  let st := run message_of events in
  script (appState st) <> Some []
  /\ (script (appState st) <> None -> videoFile st <> None)
  /\ (videoFile st = None <-> videoUrl st = None)
  /\ isProcessing (processing st) = false.
Proof.
  cbn zeta. change (tab_invariant (run message_of events)). unfold run.
  assert (H : forall st, tab_invariant st ->
                         tab_invariant (fold_left (react message_of) events st)).
  { induction events as [|e events IH]; intros st Hst; [exact Hst|].
    cbn [fold_left]. apply IH.
    destruct e as [files url|files url|outcome]; cbn [react].
    - now apply on_file_invariant.
    - now apply on_file_invariant.
    - now apply generate_invariant. }
  apply H. unfold tab_invariant, initial. cbn.
  repeat split; try discriminate; try contradiction; auto.
Qed.

End Tab.

(** ** The styled prompt *)

Section Styled.

Import Veo.

(** X13. The prompt sent always ends with a space and the prompt typed.
    For each of the seven style ids of the table, the ones the select
    offers, it is the text of that style, the space and the prompt typed;
    for the default style [none], whose text is empty, that leaves the
    space and the prompt typed alone. *)
Theorem styledPrompt_lookup :
  (forall style typed, exists before,
        styledPrompt style typed = before ++ str " " ++ typed)
  /\ (forall s typed, In s VIDEO_STYLES ->
                      styledPrompt (id s) typed = prompt s ++ str " " ++ typed)
  /\ (forall typed, styledPrompt (str "none") typed = str " " ++ typed).
Proof.
  split; [|split].
  - intros style typed. unfold styledPrompt. eexists. reflexivity.
  - intros s typed Hs. unfold VIDEO_STYLES in Hs. cbn [In] in Hs.
    destruct Hs as [<-|[<-|[<-|[<-|[<-|[<-|[<-|[]]]]]]]]; reflexivity.
  - reflexivity.
Qed.

Lemma styledPrompt_lookup_witness :
  styledPrompt (str "noir") (str "a street at night")
  = str "High contrast black and white, dramatic shadows, moody atmosphere, classic film grain"
        ++ str " " ++ str "a street at night".
Proof.
  apply (proj1 (proj2 styledPrompt_lookup)
               {| id := str "noir"; label := str "Film Noir";
                  prompt := str "High contrast black and white, dramatic shadows, moody atmosphere, classic film grain" |}
               (str "a street at night")).
  cbn. tauto.
Defined.

End Styled.

(** ** Live transcription *)

Section LiveTranscription.

Import Live.

Lemma buffer_grows (events : list live_event) :
  forall st,
    transcriptionBuffer (fold_left live_react events st)
    = transcriptionBuffer st ++ concat (map heard events).
Proof.
  induction events as [|e events IH]; intros st; cbn [fold_left map concat].
  - now rewrite app_nil_r.
  - rewrite IH, app_assoc. f_equal.
    destruct e as [o|[text|]| |]; cbn; rewrite ?app_nil_r; try reflexivity.
    unfold startLiveTranscription.
    destruct (isLiveTranscribing st); [reflexivity|now destruct o].
Qed.

(** X14. The buffer of the transcription only grows: it always holds
    every text received since the component was mounted, in order, and
    neither stopping nor starting again clears it.  So what is displayed
    after a message is all of that text, whatever was heard in earlier
    sessions included. *)
Theorem transcription_never_cleared (events : list live_event)
        (text : option jsstring) :
  transcriptionBuffer (live_run events) = concat (map heard events)
  /\ transcriptionResult (live_run (events ++ [Message (Some text)]))
     = concat (map heard events) ++ appended text.
Proof.
  unfold live_run. split.
  - now rewrite buffer_grows.
  - rewrite fold_left_app. cbn [fold_left live_react onmessage
                                transcriptionResult].
    now rewrite buffer_grows.
Qed.

End LiveTranscription.
